(** * lune-simfoni CSV tool: the per-record estimation pipeline

    A shallow embedding of [index.ts] (the latest iteration, with retries
    and chunked output) and of the validators of [utils.ts], followed by
    the properties of the pipeline.

    Conventions of the embedding:
    - JS strings are [string]; JS objects used as dictionaries are
      [gmap string _]; arrays are lists.
    - [Result<T, E>] of ts-results-es is the inductive [Result].
    - Finite JS numbers that are only compared or subtracted (match
      scores) are rationals: for finite doubles the sign of [a - b] is the
      sign of the exact difference, so the comparator behaves the same.
    - Awaited effects (service calls, sleeps, file writes) are recorded in
      an explicit world that is threaded through the code.  Console output
      is not modelled. *)

From Stdlib Require Import QArith Lqa Ascii String.
From stdpp Require Import gmap strings list pretty sorting.

Set Default Proof Using "Type".
#[local] Set Warnings "-clear-no-such-hyp".
Local Open Scope string_scope.
Local Open Scope list_scope.

(** ** ts-results-es *)

Inductive Result (T E : Type) : Type :=
  | Ok (value : T)
  | Err (error : E).
Arguments Ok {T E} value.
Arguments Err {T E} error.

Definition isErr {T E} (r : Result T E) : bool :=
  match r with Ok _ => false | Err _ => true end.

Definition andThen {T U E} (r : Result T E) (f : T → Result U E) : Result U E :=
  match r with Ok v => f v | Err e => Err e end.

Definition mapErr {T E F} (r : Result T E) (f : E → F) : Result T F :=
  match r with Ok v => Ok v | Err e => Err (f e) end.

(** A JS computation either returns a value or throws. *)
Inductive Completion (A : Type) : Type :=
  | Returned (a : A)
  | Thrown.
Arguments Returned {A} a.
Arguments Thrown {A}.

(** ** JS string helpers used by the row extraction *)

Module JsString.

(** [String.prototype.trim] removes white space and line terminators from
    both ends.  Strings are sequences of 8-bit characters here, so the
    white space of the ASCII range is covered: TAB, LF, VT, FF, CR and
    SPACE. *)
Definition isWhiteSpace (c : ascii) : bool :=
  bool_decide (nat_of_ascii c ∈ [9; 10; 11; 12; 13; 32]).

Fixpoint trimStart (s : string) : string :=
  match s with
  | String c s' => if isWhiteSpace c then trimStart s' else s
  | EmptyString => EmptyString
  end.

Definition trimEnd (s : string) : string :=
  String.rev (trimStart (String.rev s)).

Definition trim (s : string) : string := trimEnd (trimStart s).

(** [s.replace(/,/g, '')]: every comma is deleted. *)
Fixpoint removeCommas (s : string) : string :=
  match s with
  | String c s' =>
      if Ascii.eqb c "," then removeCommas s' else String c (removeCommas s')
  | EmptyString => EmptyString
  end.

(** [s.includes(',')]. *)
Fixpoint hasComma (s : string) : bool :=
  match s with
  | String c s' => Ascii.eqb c "," || hasComma s'
  | EmptyString => false
  end.

End JsString.

(** ** The Estimation Request Adapter: [calculateEmissions] *)

Module Adapter.

Definition MAX_RETRIES : nat := 5.

(** The request sent to the service: [{ value: { value, currency },
    merchant: { searchTerm, countryCode, category? } }]. *)
Record MonetaryAmount := {
  amount_value : string;
  amount_currency : string
}.

Record Merchant := {
  merchant_searchTerm : string;
  merchant_countryCode : string;
  merchant_category : option string   (* [None]: the property is absent *)
}.

Record Request := {
  value : MonetaryAmount;
  merchant : Merchant
}.

(** The error side of the client's result.  ['statusCode' in error] is
    [is_Some (statusCode e)]. *)
Record ApiError := {
  statusCode : option Z;
  description : string
}.

(** [res.emissionFactor]; [ef_co2E] is the decimal [gasEmissions.co2E]
    that [Big] parses. *)
Record EmissionFactor := {
  ef_name : string;
  ef_source : string;
  ef_numeratorUnit : string;
  ef_denominatorUnit : string;
  ef_co2E : Q
}.

(** Modelled from the spec: the SDK's [TransactionEmissionEstimate] type
    is not part of the sources.  The response either carries a computed
    mass together with the emission factor and the estimate identifier
    (exchange rate and match score optional), or carries no [mass]. *)
Inductive TransactionEmissionEstimate :=
  | WithMass (id : string) (massAmount : string) (emissionFactor : EmissionFactor)
             (exchangeRate : option Q) (searchTermMatchScore : option Q)
  | WithoutMass.

(** The value [calculateEmissions] resolves to on success
    ([dashboardUrl_] is its field [dashboardUrl]). *)
Record Emissions := {
  emissionsTCo2 : string;
  emissionFactorName : string;
  emissionFactorSource : string;
  emissionFactorIntensity : string;
  emissionFactorNumeratorUnit : string;
  emissionFactorDenominatorUnit : string;
  requestedCurrency : string;
  exchangeRate : string;
  score : option Q;
  dashboardUrl_ : string
}.

Inductive Event :=
  | EvCall (r : Request)
  | EvSleep (ms : Z).

(** The world seen by one invocation: how many service calls it has made,
    and everything it awaited, oldest first. *)
Record World := {
  calls : nat;
  log : list Event
}.

Definition newWorld : World := {| calls := 0; log := [] |}.

Definition dashboardUrl (estimateId : string) : string :=
  "https://dashboard.lune.co/calculate-emissions/everyday-purchases/"
    +:+ estimateId +:+ "/results".

(** A reply of [luneClient.createTransactionEstimate]. *)
Definition Reply : Type := Result TransactionEmissionEstimate ApiError.

(** How the [for] loop is left. *)
Inductive LoopExit :=
  | LoopReturn (r : Result Emissions string)
  | LoopBreak (res : TransactionEmissionEstimate)
  | LoopEnd.

Section WithService.
(** [service n] is what the [n]-th call (from 0) of this invocation to
    [luneClient.createTransactionEstimate] resolves to. *)
Variable service : nat → Reply.
(** [Big.prototype.toString]. *)
Variable Big_toString : Q → string.

Definition createTransactionEstimate (r : Request) (w : World) : Reply * World :=
  (service (calls w), {| calls := S (calls w); log := log w ++ [EvCall r] |}).

Definition sleepMs (ms : Z) (w : World) : World :=
  {| calls := calls w; log := log w ++ [EvSleep ms] |}.

(** The retry loop.  [fuel] is [MAX_RETRIES - retryCount], the number of
    iterations the loop guard [retryCount < MAX_RETRIES] still admits. *)
Fixpoint retryLoop (fuel retryCount : nat) (request : Request) (w : World)
  : LoopExit * World :=
  match fuel with
  | O => (LoopEnd, w)
  | S fuel' =>
      let '(result, w1) := createTransactionEstimate request w in
      match result with
      | Err error =>
          match statusCode error with
          | Some _ => (LoopReturn (Err (description error)), w1)
          | None =>
              if bool_decide (retryCount < MAX_RETRIES - 1)
              then retryLoop fuel' (S retryCount) request (sleepMs 500 w1)
              else (LoopReturn (Err (description error)), w1)
          end
      | Ok res => (LoopBreak res, w1)
      end
  end.

Definition emissionsOf (currency : string) (res : TransactionEmissionEstimate)
  : Emissions :=
  match res with
  | WithoutMass =>
      {| emissionsTCo2 := ""; emissionFactorName := "";
         emissionFactorSource := ""; emissionFactorIntensity := "";
         emissionFactorNumeratorUnit := ""; emissionFactorDenominatorUnit := "";
         requestedCurrency := currency; exchangeRate := "";
         score := None; dashboardUrl_ := "" |}
  | WithMass id massAmount ef rate matchScore =>
      let exchangeRate := default 1%Q rate in
      let intensity := Qmult (ef_co2E ef) exchangeRate in
      {| emissionsTCo2 := massAmount; emissionFactorName := ef_name ef;
         emissionFactorSource := ef_source ef;
         emissionFactorIntensity := Big_toString intensity;
         emissionFactorNumeratorUnit := ef_numeratorUnit ef;
         emissionFactorDenominatorUnit := ef_denominatorUnit ef;
         requestedCurrency := currency;
         exchangeRate := Big_toString exchangeRate;
         score := matchScore; dashboardUrl_ := dashboardUrl id |}
  end.

(** The [request] literal; [...(category ? { category } : {})] leaves the
    category out when it is [undefined] or the empty string. *)
Definition mkRequest (searchTerm : string) (category : option string)
    (amount currency countryCode : string) : Request :=
  {| value := {| amount_value := amount; amount_currency := currency |};
     merchant :=
       {| merchant_searchTerm := searchTerm;
          merchant_countryCode := countryCode;
          merchant_category :=
            match category with
            | Some c => if decide (c = "") then None else Some c
            | None => None
            end |} |}.

Definition calculateEmissions (searchTerm : string) (category : option string)
    (amount currency countryCode : string) (w : World)
  : Completion (Result Emissions string) * World :=
  let request := mkRequest searchTerm category amount currency countryCode in
  let '(exit, w') := retryLoop MAX_RETRIES 0 request w in
  match exit with
  | LoopReturn r => (Returned r, w')
  | LoopBreak res => (Returned (Ok (emissionsOf currency res)), w')
  | LoopEnd => (Thrown, w')   (* [result!.unwrap()] on an [Err] *)
  end.

End WithService.

(** What [n] consecutive attempts leave in the log: [n] calls with a
    500 ms sleep between consecutive ones. *)
Fixpoint attempts (request : Request) (n : nat) : list Event :=
  match n with
  | O => []
  | S n' => EvCall request ::
            match n' with O => [] | S _ => EvSleep 500 :: attempts request n' end
  end.

Definition callsIn (l : list Event) : list Request :=
  omap (λ e, match e with EvCall r => Some r | EvSleep _ => None end) l.

Definition sleepsIn (l : list Event) : list Z :=
  omap (λ e, match e with EvCall _ => None | EvSleep ms => Some ms end) l.

Definition transient (r : Reply) : Prop :=
  ∃ e, r = Err e ∧ statusCode e = None.

End Adapter.

(** ** The Permutation Generator *)

Module Generator.

Record Candidate := {
  searchTerm : string;
  category : option string   (* [None] is [undefined] *)
}.

(** Two nested [for ... of] loops pushing onto [result]. *)
Definition searchCategoryPermutations (searchTerms : list string)
    (categories : list (option string)) : list Candidate :=
  foldl (λ result searchTerm,
           foldl (λ result category,
                    result ++ [{| searchTerm := searchTerm; category := category |}])
                 result categories)
        [] searchTerms.

(** [row[column]]; [loadCsv] has checked that every configured column is a
    string property of every row. *)
Definition field (row : gmap string string) (column : string) : string :=
  default "" (row !! column).

(** The per-row extraction at the top of the loop body of [main]. *)
Definition searchTermsOf (searchTermColumnsArr : list string)
    (row : gmap string string) : list string :=
  (λ column, JsString.trim (field row column)) <$> searchTermColumnsArr.

Definition categoriesOf (categoryColumnsArr : list string)
    (row : gmap string string) : list (option string) :=
  match length categoryColumnsArr with
  | O => [None]
  | S _ => (λ column, Some (JsString.trim (field row column))) <$> categoryColumnsArr
  end.

Definition amountOf (monetaryAmountColumn : string) (row : gmap string string)
  : string :=
  JsString.removeCommas (JsString.trim (field row monetaryAmountColumn)).

Definition searchPermutationsOf (searchTermColumnsArr categoryColumnsArr : list string)
    (row : gmap string string) : list Candidate :=
  searchCategoryPermutations (searchTermsOf searchTermColumnsArr row)
                             (categoriesOf categoryColumnsArr row).

End Generator.

(** ** The Row Estimator and the Ranker/Merger *)

Module Merger.
Import Generator.

(** [number | null | undefined]. *)
Inductive Score :=
  | ScoreNumber (q : Q)
  | ScoreNull
  | ScoreUndefined.

Record PermutationResult := {
  name : string;
  emissions : string;
  source : string;
  url : string;
  searchTermUsed : string;
  categoryUsed : string;
  score : Score;
  exchangeRate : string;
  emissionFactorNumeratorUnit : string;
  emissionFactorDenominatorUnit : string;
  emissionFactorIntensity : string;
  requestedCurrency : string
}.

(** The entry pushed when [result.isErr()]. *)
Definition failureEntry (error : string) : PermutationResult :=
  {| name := "Error: " +:+ error;
     emissions := ""; source := ""; url := "";
     searchTermUsed := ""; categoryUsed := "";
     score := ScoreNull;
     emissionFactorNumeratorUnit := ""; emissionFactorDenominatorUnit := "";
     emissionFactorIntensity := ""; exchangeRate := "";
     requestedCurrency := "" |}.

(** The entry pushed otherwise; [category || ''] for the category. *)
Definition successEntry (c : Candidate) (e : Adapter.Emissions) : PermutationResult :=
  {| name := Adapter.emissionFactorName e;
     emissions := Adapter.emissionsTCo2 e;
     source := Adapter.emissionFactorSource e;
     url := Adapter.dashboardUrl_ e;
     searchTermUsed := searchTerm c;
     categoryUsed := default "" (category c);
     score := match Adapter.score e with
              | Some q => ScoreNumber q
              | None => ScoreUndefined
              end;
     emissionFactorNumeratorUnit := Adapter.emissionFactorNumeratorUnit e;
     emissionFactorDenominatorUnit := Adapter.emissionFactorDenominatorUnit e;
     emissionFactorIntensity := Adapter.emissionFactorIntensity e;
     exchangeRate := Adapter.exchangeRate e;
     requestedCurrency := Adapter.requestedCurrency e |}.

(** [score === null || score === undefined] *)
Definition isNullish (s : Score) : bool :=
  match s with
  | ScoreNumber _ => false
  | ScoreNull | ScoreUndefined => true
  end.

Definition noConfidenceResults (permutationsResults : list PermutationResult)
  : list PermutationResult :=
  filter (λ r, isNullish (score r)) permutationsResults.

Definition withConfidenceResults (permutationsResults : list PermutationResult)
  : list PermutationResult :=
  filter (λ r, negb (isNullish (score r))) permutationsResults.

(** [a.score!] as a number; the comparator only ever sees results whose
    score is a number. *)
Definition scoreOf (r : PermutationResult) : Q :=
  match score r with
  | ScoreNumber q => q
  | ScoreNull | ScoreUndefined => 0%Q
  end.

(** The comparator [(a, b) => a.score! - b.score!]. *)
Definition compareFn (a b : PermutationResult) : Q :=
  Qminus (scoreOf a) (scoreOf b).

#[global] Instance Qeq_decision (a b : Q) : Decision (a == b)%Q := Qeq_dec a b.

(** The order the comparator stands for: non-decreasing score. *)
Definition byScore (a b : PermutationResult) : Prop := (scoreOf a <= scoreOf b)%Q.

(** [Array.prototype.sort] is a stable sort by the comparator; it is
    modelled by the stable insertion sort.  [sortInsert x l] puts [x],
    which preceded all of [l] in the array, in front of the first element
    it does not compare greater than. *)
Fixpoint sortInsert {A} (compare : A → A → Q) (x : A) (l : list A) : list A :=
  match l with
  | [] => [x]
  | y :: l' =>
      if Qle_bool (compare x y) 0 then x :: y :: l'
      else y :: sortInsert compare x l'
  end.

Definition sort {A} (compare : A → A → Q) (l : list A) : list A :=
  foldr (sortInsert compare) [] l.

Definition sortedPermutationResults (permutationsResults : list PermutationResult)
  : list PermutationResult :=
  sort compareFn (withConfidenceResults permutationsResults)
    ++ noConfidenceResults permutationsResults.

(** The eleven columns written per rank, in the order of the object
    literal. *)
Inductive Column :=
  | Emissions
  | EmissionFactorName
  | EmissionFactorSource
  | EmissionFactorIntensity
  | EmissionFactorIntensityUnit
  | EmissionFactorOriginalUnit
  | ExchangeRate
  | ConfidenceScore
  | DashboardURL
  | SearchTermUsed
  | CategoryUsed.

#[global] Instance Column_eq_dec : EqDecision Column.
Proof. solve_decision. Defined.

Definition allColumns : list Column :=
  [Emissions; EmissionFactorName; EmissionFactorSource; EmissionFactorIntensity;
   EmissionFactorIntensityUnit; EmissionFactorOriginalUnit; ExchangeRate;
   ConfidenceScore; DashboardURL; SearchTermUsed; CategoryUsed].

Definition columnName (c : Column) : string :=
  match c with
  | Emissions => "Emissions (tCO2e)"
  | EmissionFactorName => "Emission factor name"
  | EmissionFactorSource => "Emission factor source"
  | EmissionFactorIntensity => "Emission factor intensity"
  | EmissionFactorIntensityUnit => "Emission factor intensity unit"
  | EmissionFactorOriginalUnit => "Emission factor original unit"
  | ExchangeRate => "Exchange rate"
  | ConfidenceScore => "Confidence score"
  | DashboardURL => "Dashboard URL"
  | SearchTermUsed => "Search term used"
  | CategoryUsed => "Category used"
  end.

(** The key [`<name> (${idx})`]. *)
Definition columnKey (c : Column) (idx : nat) : string :=
  columnName c +:+ " (" +:+ pretty idx +:+ ")".

(** [Array.prototype.reduce] with the index passed to the callback. *)
Fixpoint reduceFrom {A B} (f : B → A → nat → B) (i : nat) (l : list A) (acc : B) : B :=
  match l with
  | [] => acc
  | x :: l' => reduceFrom f (S i) l' (f acc x i)
  end.

Definition reduce {A B} (f : B → A → nat → B) (l : list A) (init : B) : B :=
  reduceFrom f 0 l init.

Section WithNumberFormat.
(** [Number.prototype.toString], as used by the template literal. *)
Variable Number_toString : Q → string.

(** [score ? `${score}` : ``]: zero is falsy, like [null] and
    [undefined]. *)
Definition confidenceCell (s : Score) : string :=
  match s with
  | ScoreNumber q => if Qeq_bool q 0 then "" else Number_toString q
  | ScoreNull | ScoreUndefined => ""
  end.

(** The value written under each column. *)
Definition cell (c : Column) (r : PermutationResult) : string :=
  match c with
  | Emissions => emissions r
  | EmissionFactorName => name r
  | EmissionFactorSource => source r
  | EmissionFactorIntensity => emissionFactorIntensity r
  | EmissionFactorIntensityUnit =>
      emissionFactorNumeratorUnit r +:+ "CO2e/" +:+ requestedCurrency r
  | EmissionFactorOriginalUnit =>
      emissionFactorNumeratorUnit r +:+ "CO2e/" +:+ emissionFactorDenominatorUnit r
  | ExchangeRate => exchangeRate r
  | ConfidenceScore => confidenceCell (score r)
  | DashboardURL => url r
  | SearchTermUsed => searchTermUsed r
  | CategoryUsed => if decide (categoryUsed r = "") then "" else categoryUsed r
  end.

(** The callback of the reduce: [{ ...acc, key1: v1, ..., key11: v11 }]. *)
Definition mergeEntry (acc : gmap string string) (result : PermutationResult)
    (i : nat) : gmap string string :=
  let idx := i + 1 in
  foldl (λ obj c, <[columnKey c idx := cell c result]> obj) acc allColumns.

Definition resultObj (sorted : list PermutationResult) : gmap string string :=
  reduce mergeEntry sorted ∅.

(** The row pushed onto [out]: [{ ...row, ...resultObj }]. *)
Definition outputRow (row : gmap string string) (sorted : list PermutationResult)
  : gmap string string :=
  resultObj sorted ∪ row.

End WithNumberFormat.

(** *** The concurrent tasks of one row *)

Section WithRow.
(** [services i] is the reply stream seen by the task of candidate [i]. *)
Variable services : nat → nat → Adapter.Reply.
Variable Big_toString : Q → string.
Variable searchPermutations : list Candidate.
Variables amount currency countryCode : string.

(** The body of the async function [fn] of candidate [i], run to its end:
    it awaits [calculateEmissions] and pushes one entry.  An exception
    escaping [calculateEmissions] would reject the task before the push. *)
Definition runTask (i : nat) (permutationsResults : list PermutationResult)
  : list PermutationResult :=
  match searchPermutations !! i with
  | None => permutationsResults
  | Some c =>
      match (Adapter.calculateEmissions (services i) Big_toString
               (searchTerm c) (category c) amount currency countryCode
               Adapter.newWorld).1 with
      | Returned (Err error) => permutationsResults ++ [failureEntry error]
      | Returned (Ok e) => permutationsResults ++ [successEntry c e]
      | Thrown => permutationsResults
      end
  end.

(** The tasks run on one thread and each pushes in one uninterrupted
    section, so the state between pushes is the set of tasks that have not
    finished and the array filled so far. *)
Record Tasks := {
  pending : gset nat;
  permutationsResults : list PermutationResult
}.

(** All tasks created by the [for] loop, none finished. *)
Definition started : Tasks :=
  {| pending := list_to_set (seq 0 (length searchPermutations));
     permutationsResults := [] |}.

(** Task [i] runs to its end. *)
Definition finish (i : nat) (st : Tasks) : Tasks :=
  {| pending := pending st ∖ {[i]};
     permutationsResults := runTask i (permutationsResults st) |}.

(** Any pending task may be the next one to finish. *)
Inductive step : Tasks → Tasks → Prop :=
  | step_finish i st : i ∈ pending st → step st (finish i st).

(** [await Promise.all(promises)] resumes when no task is pending. *)
Definition joined (st : Tasks) : Prop := pending st = ∅.

(** The run in which the tasks finish in the order [schedule]. *)
Definition runSchedule (schedule : list nat) : Tasks :=
  foldl (λ st i, finish i st) started schedule.

(** The outcome of candidate [i]. *)
Definition outcome (i : nat) : list PermutationResult := runTask i [].

End WithRow.

End Merger.

(** ** The record loader of [utils.ts] *)

Module Loader.

(** Values of type [unknown]. *)
#[local] Unset Elimination Schemes.
Inductive JsValue :=
  | JsUndefined
  | JsNull
  | JsBoolean (b : bool)
  | JsNumber (q : Q)
  | JsString (s : string)
  | JsArray (items : list JsValue)
  | JsObject (props : list (string * JsValue)).
#[local] Set Elimination Schemes.

Definition isNull (v : JsValue) : bool :=
  match v with JsNull => true | _ => false end.

Definition typeof (v : JsValue) : string :=
  match v with
  | JsUndefined => "undefined"
  | JsBoolean _ => "boolean"
  | JsNumber _ => "number"
  | JsString _ => "string"
  | JsNull | JsArray _ | JsObject _ => "object"
  end.

(** The first property named [p] of an object. *)
Fixpoint lookupProperty (p : string) (props : list (string * JsValue))
  : option JsValue :=
  match props with
  | [] => None
  | (k, v) :: rest => if decide (k = p) then Some v else lookupProperty p rest
  end.

(** The element of an array whose index prints as [p]. *)
Fixpoint lookupIndex (p : string) (i : nat) (items : list JsValue)
  : option JsValue :=
  match items with
  | [] => None
  | v :: rest => if decide (pretty i = p) then Some v else lookupIndex p (S i) rest
  end.

(** [p in value ? value[p] : undefined] for a [value] of type object,
    over the properties that [value] owns.  The properties that an object
    inherits from its prototype are not part of a [JsValue]; their names
    are listed in [objectPrototypeNames] below. *)
Definition getProperty (value : JsValue) (p : string) : JsValue :=
  match value with
  | JsObject props => default JsUndefined (lookupProperty p props)
  | JsArray items =>
      if decide (p = "length") then JsNumber (inject_Z (Z.of_nat (length items)))
      else default JsUndefined (lookupIndex p 0 items)
  | _ => JsUndefined
  end.

(** The names that [p in value] finds on [Object.prototype], for a plain
    object [value] that does not own them: there [value[p]] is a function,
    or the prototype itself for ["__proto__"], where [getProperty] gives
    [JsUndefined]. *)
Definition objectPrototypeNames : list string :=
  [ "constructor"; "__defineGetter__"; "__defineSetter__"; "hasOwnProperty";
    "__lookupGetter__"; "__lookupSetter__"; "isPrototypeOf";
    "propertyIsEnumerable"; "toString"; "valueOf"; "__proto__";
    "toLocaleString" ].

Section WithHost.
(** [`${value}`] for arbitrary values. *)
Variable toString : JsValue → string.
(** [fs/promises.readFile]; [Err] carries the text of the exception. *)
Variable readFile : string → Result string string.
(** [csv-parse/sync.parse] with [{ columns: true, bom: true }]; [Err]
    carries the text of the exception. *)
Variable parseCsv : string → Result JsValue string.

Definition readFileChecked (path : string) : Result string string :=
  match readFile path with
  | Ok content => Ok content
  | Err e => Err ("Failed to load " +:+ path +:+ ": " +:+ e)
  end.

Definition parseCsvChecked (buffer : string) : Result JsValue string :=
  match parseCsv buffer with
  | Ok parsed => Ok parsed
  | Err e => Err ("Failed to parse CSV content: " +:+ e)
  end.

(** The [for ... of] loop of [passStringRecord]. *)
Fixpoint checkProperties (value : JsValue) (properties : list string)
  : Result JsValue string :=
  match properties with
  | [] => Ok value
  | p :: rest =>
      let propertyValue := getProperty value p in
      if decide (typeof propertyValue = "string") then checkProperties value rest
      else Err ("Property " +:+ p +:+ " is not a string: " +:+ typeof propertyValue)
  end.

Definition passStringRecord (value : JsValue) (properties : list string)
  : Result JsValue string :=
  if bool_decide (typeof value ≠ "object") || isNull value
  then Err (toString value +:+ " is not an object")
  else checkProperties value properties.

(** [Err.prototype.toString] of ts-results-es, used by [errors.join]. *)
Definition showErr {T} (r : Result T string) : string :=
  match r with
  | Ok _ => ""
  | Err e => "Err(" +:+ e +:+ ")"
  end.

Definition join (sep : string) (l : list string) : string :=
  String.concat sep l.

Definition passArray {T} (value : JsValue) (validator : JsValue → Result T string)
  : Result (list JsValue) string :=
  match value with
  | JsArray items =>
      if decide (length items = 0) then Err "The array is empty"
      else
        let errors :=
          filter (λ result, isErr result)
                 (imap (λ index item,
                          mapErr (validator item) (λ e, pretty index +:+ ": " +:+ e))
                       items) in
        if decide (0 < length errors)
        then Err ("One or more items failed validation: "
                    +:+ join ", " (showErr <$> errors))
        else Ok items
  | _ => Err (toString value +:+ " is not an array")
  end.

Definition loadCsv (path : string) (fields : list string)
  : Result (list JsValue) string :=
  match readFileChecked path with
  | Err e => Err e
  | Ok rawContent =>
      andThen (andThen (Ok rawContent) parseCsvChecked)
              (λ parsed, passArray parsed (λ item, passStringRecord item fields))
  end.

(** [Object.entries] of an object or an array. *)
Definition entries (o : JsValue) : list (string * JsValue) :=
  match o with
  | JsObject props => props
  | JsArray items => imap (λ i v, (pretty i, v)) items
  | _ => []
  end.

(** The local function [onlySelectedFields] of [loadCsvSelectedFields]. *)
Definition onlySelectedFields (fields : list string) (o : JsValue) : JsValue :=
  if bool_decide (typeof o ≠ "object") || isNull o then o
  else JsObject (filter (λ kv, kv.1 ∈ fields) (entries o)).

Definition loadCsvSelectedFields (path : string) (fields : list string)
  : Result (list JsValue) string :=
  match readFileChecked path with
  | Err e => Err e
  | Ok rawContent =>
      andThen (andThen (Ok rawContent) parseCsvChecked)
              (λ parsed,
                 passArray parsed
                   (λ item, passStringRecord (onlySelectedFields fields item) fields))
  end.

End WithHost.

(** Two validators give the same verdict: both accept, or both reject with
    the same message. *)
Definition sameVerdict {T U} (r1 : Result T string) (r2 : Result U string) : Prop :=
  match r1, r2 with
  | Ok _, Ok _ => True
  | Err e1, Err e2 => e1 = e2
  | _, _ => False
  end.

Definition isArray (v : JsValue) : bool :=
  match v with JsArray _ => true | _ => false end.

(** A validated record, read as the dictionary [main] indexes. *)
Definition asRow (value : JsValue) : gmap string string :=
  match value with
  | JsObject props =>
      list_to_map
        (omap (λ kv, match kv.2 with JsString s => Some (kv.1, s) | _ => None end)
              props)
  | _ => ∅
  end.

End Loader.

(** ** The Pipeline Driver and the Chunked Output Writer: [main] *)

Module Driver.

Record Options := {
  output : string;
  searchTermColumnsArr : list string;
  categoryColumnsArr : list string;
  monetaryAmountColumn : string;
  currencyColumn : string;
  countryCodeColumn : string;
  outputFileRows : Z;
  filename : string
}.

Definition columns (o : Options) : list string :=
  searchTermColumnsArr o
    ++ [monetaryAmountColumn o; currencyColumn o; countryCodeColumn o]
    ++ categoryColumnsArr o.

(** [Math.floor(a / b)] and [Math.ceil(a / b)] on integers, for a row
    limit [b >= 1]; the quotient of an array index by such a limit is far
    from the range where the rounding of the floating-point division could
    cross an integer. *)
Definition floorDiv (a b : Z) : Z := (a `div` b)%Z.
Definition ceilDiv (a b : Z) : Z := (- ((- a) `div` b))%Z.

Section WithRows.
Context {OutRow : Type}.

(** The accumulator [out] and the files written so far.  The file
    [`${output}-${suffix}.csv`] is identified by its suffix and holds the
    rows that [stringify] serialised. *)
Record Writer := {
  out : list OutRow;
  files : gmap Z (list OutRow);
  progress : nat
}.

Definition emptyWriter : Writer := {| out := []; files := ∅; progress := 0 |}.

(** The condition of the [if] at the end of the loop body. *)
Definition mustWrite (outputFileRows totalRows i : Z) : bool :=
  (bool_decide (Z.rem (i + 1) outputFileRows = 0%Z) && bool_decide (i ≠ 0%Z))
  || bool_decide (i = (totalRows - 1)%Z).

Definition suffixOf (outputFileRows totalRows i : Z) : Z :=
  if bool_decide (i = (totalRows - 1)%Z) then ceilDiv i outputFileRows
  else floorDiv i outputFileRows.

(** The end of one iteration: push the row, report progress, write and
    reset when due. *)
Definition pushRow (outputFileRows totalRows i : Z) (merged : OutRow) (w : Writer)
  : Writer :=
  let out := out w ++ [merged] in
  if mustWrite outputFileRows totalRows i
  then {| out := [];
          files := <[suffixOf outputFileRows totalRows i := out]> (files w);
          progress := S (progress w) |}
  else {| out := out; files := files w; progress := S (progress w) |}.

(** The [for] loop of [main] from index [i] on, over the rows it produces. *)
Fixpoint loopFrom (outputFileRows totalRows i : Z) (rows : list OutRow) (w : Writer)
  : Writer :=
  match rows with
  | [] => w
  | merged :: rest =>
      loopFrom outputFileRows totalRows (i + 1) rest
               (pushRow outputFileRows totalRows i merged w)
  end.

Definition writeAll (outputFileRows : Z) (rows : list OutRow) : Writer :=
  loopFrom outputFileRows (Z.of_nat (length rows)) 0 rows emptyWriter.

(** The chunk files read back in ascending order of their suffix. *)
Definition chunksAscending (fs : gmap Z (list OutRow)) : list (list OutRow) :=
  (λ suffix, default [] (fs !! suffix)) <$> merge_sort Z.le (elements (dom fs)).

(** The property of the writer: [ceil(R / C)] files, all but the last
    holding [C] rows, and the rows in emission order when the files are
    read in suffix order. *)
Definition chunkedAs (outputFileRows : Z) (rows : list OutRow)
    (fs : gmap Z (list OutRow)) : Prop :=
  Z.of_nat (size fs) = ceilDiv (Z.of_nat (length rows)) outputFileRows
  ∧ Forall (λ chunk, Z.of_nat (length chunk) = outputFileRows)
           (removelast (chunksAscending fs))
  ∧ concat (chunksAscending fs) = rows.

Definition chunked (outputFileRows : Z) (rows : list OutRow) : Prop :=
  chunkedAs outputFileRows rows (files (writeAll outputFileRows rows)).

(** The files [0 .. n-1] hold the chunks [chunks], and there is no other
    file. *)
Definition holds (chunks : list (list OutRow)) (fs : gmap Z (list OutRow)) : Prop :=
  ∀ z : Z, fs !! z = if decide (0 ≤ z)%Z then chunks !! Z.to_nat z else None.

(** The state of the writer between two iterations, after the rows
    [pushed]: whole chunks in the files, fewer than a chunk in [out]. *)
Definition buffered (outputFileRows : Z) (pushed : list OutRow) (w : Writer)
    (chunks : list (list OutRow)) : Prop :=
  holds chunks (files w)
  ∧ Forall (λ chunk, Z.of_nat (length chunk) = outputFileRows) chunks
  ∧ concat chunks ++ out w = pushed
  ∧ (Z.of_nat (length (out w)) < outputFileRows)%Z
  ∧ Z.of_nat (length pushed)
    = (outputFileRows * Z.of_nat (length chunks) + Z.of_nat (length (out w)))%Z
  ∧ progress w = length pushed.

(** For any row limit: the writes so far, in the order in which they were
    made, went to increasing suffixes and hold the rows pushed so far but
    for those still in [out]. *)
Definition recorded (pushed : list OutRow) (w : Writer)
    (writes : list (Z * list OutRow)) : Prop :=
  files w = list_to_map writes
  ∧ Sorted Z.lt writes.*1
  ∧ Forall (λ chunk, chunk ≠ []) writes.*2
  ∧ concat writes.*2 ++ out w = pushed
  ∧ progress w = length pushed.

(** Between two iterations every suffix in use was filled by an iteration
    before the current one. *)
Definition flushed (outputFileRows : Z) (pushed : list OutRow) (w : Writer)
    (writes : list (Z * list OutRow)) : Prop :=
  recorded pushed w writes
  ∧ Forall (λ suffix, ((suffix + 1) * outputFileRows ≤ Z.of_nat (length pushed))%Z)
           writes.*1.

End WithRows.

Section WithServices.
(** [services i j] is the reply stream seen by candidate [j] of row [i],
    [schedules i] the order in which the tasks of row [i] finish. *)
Variable services : nat → nat → nat → Adapter.Reply.
Variable schedules : nat → list nat.
Variable Big_toString : Q → string.
Variable Number_toString : Q → string.
Variable toString : Loader.JsValue → string.
Variable readFile : string → Result string string.
Variable parseCsv : string → Result Loader.JsValue string.

(** The loop body of [main] up to [out.push]. *)
Definition estimateRow (o : Options) (i : nat) (row : gmap string string)
  : gmap string string :=
  let searchPermutations :=
    Generator.searchPermutationsOf (searchTermColumnsArr o) (categoryColumnsArr o) row in
  let amount := Generator.amountOf (monetaryAmountColumn o) row in
  let currency := JsString.trim (Generator.field row (currencyColumn o)) in
  let countryCode := JsString.trim (Generator.field row (countryCodeColumn o)) in
  let tasks := Merger.runSchedule (services i) Big_toString searchPermutations
                 amount currency countryCode (schedules i) in
  Merger.outputRow Number_toString row
    (Merger.sortedPermutationResults (Merger.permutationsResults tasks)).

Inductive Exit :=
  | ProcessExit (code : Z) (stderr : string)
  | Completed.

Record Run := {
  exit : Exit;
  written : gmap Z (list (gmap string string));
  rowsProcessed : nat
}.

(** [main] from [loadCsvUtils] on. *)
Definition main (o : Options) : Run :=
  match Loader.loadCsv toString readFile parseCsv (filename o) (columns o) with
  | Err error => {| exit := ProcessExit 1 error; written := ∅; rowsProcessed := 0 |}
  | Ok source =>
      let rows := imap (λ i record, estimateRow o i (Loader.asRow record)) source in
      let w := writeAll (outputFileRows o) rows in
      {| exit := Completed; written := files w; rowsProcessed := progress w |}
  end.

End WithServices.

End Driver.

(** ** Sample inputs *)

Module Samples.
Import Adapter.

(** A service that times out twice and then answers without a mass, one
    that never answers, and one that rejects with a status code. *)
Definition flakyService (n : nat) : Reply :=
  if bool_decide (n < 2) then Err {| statusCode := None; description := "timeout" |}
  else Ok WithoutMass.

Definition deadService (n : nat) : Reply :=
  Err {| statusCode := None; description := "timeout " +:+ pretty n |}.

Definition refusingService (n : nat) : Reply :=
  Err {| statusCode := Some 422%Z; description := "unprocessable" |}.

(** A record of the template file, with padded values and a thousands
    separator in the amount. *)
Definition sampleRow : gmap string string :=
  {[ "Category Level 3" := " Coffee ";
     "Category Level 2" := "Restaurants";
     "Category Level 1" := "Food";
     "Sum of Spend" := " 1,234.50 ";
     "Currency" := "USD";
     "Country" := "USA" ]}.

(** A record whose amount uses the comma as the decimal separator. *)
Definition commaRow : gmap string string :=
  {[ "Category Level 3" := "Coffee";
     "Sum of Spend" := "10,00";
     "Currency" := "USD";
     "Country" := "USA" ]}.

(** A record whose amount is a refund: a sign before the thousands
    separator. *)
Definition refundRow : gmap string string :=
  {[ "Category Level 3" := "Coffee";
     "Sum of Spend" := " -1,000 ";
     "Currency" := "USD";
     "Country" := "USA" ]}.

(** Ranked inputs: a confident match, a match of score zero, a failure and
    a response without a mass. *)
Definition scoredEntry (factor : string) (q : Q) : Merger.PermutationResult :=
  {| Merger.name := factor; Merger.emissions := "0.001";
     Merger.source := "exiobase"; Merger.url := dashboardUrl "abc";
     Merger.searchTermUsed := "Coffee"; Merger.categoryUsed := "";
     Merger.score := Merger.ScoreNumber q;
     Merger.exchangeRate := "1";
     Merger.emissionFactorNumeratorUnit := "kg";
     Merger.emissionFactorDenominatorUnit := "USD";
     Merger.emissionFactorIntensity := "0.5";
     Merger.requestedCurrency := "USD" |}.

Definition sampleResults : list Merger.PermutationResult :=
  [ Merger.failureEntry "unprocessable";
    scoredEntry "Coffee shops" (9 # 10);
    Merger.successEntry {| Generator.searchTerm := "Coffee"; Generator.category := None |}
      (emissionsOf (λ _, "") "USD" WithoutMass);
    scoredEntry "Cafes" 0 ].

(** Two candidates of one row: the service rejects the first and, after
    two timeouts, answers the second without a mass. *)
Definition sampleCandidates : list Generator.Candidate :=
  [ {| Generator.searchTerm := "Coffee"; Generator.category := Some "Food" |};
    {| Generator.searchTerm := "Restaurants"; Generator.category := Some "Food" |} ].

Definition sampleServices (i : nat) : nat → Reply :=
  match i with
  | O => refusingService
  | S _ => flakyService
  end.

(** A run over the template file, and a file that holds the header line
    only. *)
Definition sampleOptions : Driver.Options :=
  {| Driver.output := "output.csv";
     Driver.searchTermColumnsArr := ["Category Level 3"];
     Driver.categoryColumnsArr := ["Category Level 2"];
     Driver.monetaryAmountColumn := "Sum of Spend";
     Driver.currencyColumn := "Currency";
     Driver.countryCodeColumn := "Country";
     Driver.outputFileRows := 10000;
     Driver.filename := "template.csv" |}.

Definition headerOnly : string :=
  "Category Level 3,Category Level 2,Sum of Spend,Currency,Country".

Definition readHeaderOnly (path : string) : Result string string := Ok headerOnly.

Definition parseNoRecords (buffer : string) : Result Loader.JsValue string :=
  Ok (Loader.JsArray []).

(** A service that times out three times and then rejects. *)
Definition rejectingLater (n : nat) : Reply :=
  if bool_decide (n < 3) then Err {| statusCode := None; description := "timeout" |}
  else Err {| statusCode := Some 401%Z; description := "unauthorized" |}.

(** A file with one record, which has a column that is not asked for. *)
Definition oneRecord : Loader.JsValue :=
  Loader.JsObject
    [ ("Category Level 3", Loader.JsString "Coffee");
      ("Category Level 2", Loader.JsString "Restaurants");
      ("Sum of Spend", Loader.JsString "10.00");
      ("Currency", Loader.JsString "USD");
      ("Country", Loader.JsString "USA");
      ("Notes", Loader.JsString "weekly") ].

Definition parseOneRecord (buffer : string) : Result Loader.JsValue string :=
  Ok (Loader.JsArray [oneRecord]).

(** A run in which the single task of every row finishes, against a
    service that times out twice before it answers. *)
Definition sampleSchedules (i : nat) : list nat := [0].

Definition sampleRowServices (i j : nat) : nat → Reply := flakyService.

(** A file that cannot be read. *)
Definition readMissing (path : string) : Result string string :=
  Err "ENOENT: no such file or directory".

End Samples.

(** * Properties *)

(** ** The retry policy of [calculateEmissions] *)

Module AdapterProofs.
Import Adapter Samples.

Section Retry.
Variable service : nat → Reply.
Variable Big_toString : Q → string.
Variable request : Request.

Lemma attempts_S n :
  attempts request (S (S n)) = EvCall request :: EvSleep 500 :: attempts request (S n).
Proof. reflexivity. Qed.

Lemma callsIn_attempts n : callsIn (attempts request n) = replicate n request.
Proof.
  induction n as [|[|n] IH]; [done..|].
  rewrite attempts_S. unfold callsIn in *. cbn [omap list_omap].
  by rewrite IH.
Qed.

Lemma sleepsIn_attempts n :
  sleepsIn (attempts request n) = replicate (n - 1) 500%Z.
Proof.
  induction n as [|[|n] IH]; [done..|].
  rewrite attempts_S. unfold sleepsIn in *. cbn [omap list_omap].
  rewrite IH. cbn. by rewrite Nat.sub_0_r.
Qed.

(** One failed attempt that is retried. *)
Lemma retryLoop_transient fuel retryCount w e :
  service (calls w) = Err e → statusCode e = None →
  retryCount < MAX_RETRIES - 1 →
  retryLoop service (S fuel) retryCount request w =
  retryLoop service fuel (S retryCount) request
    {| calls := S (calls w); log := log w ++ [EvCall request; EvSleep 500] |}.
Proof.
  intros Hs He Hlt. cbn [retryLoop createTransactionEstimate].
  rewrite Hs, He, bool_decide_eq_true_2 by done.
  unfold sleepMs; cbn. by rewrite <- app_assoc.
Qed.

(** [k] transient failures, then a reply. *)
Lemma retryLoop_success k : ∀ fuel retryCount w res,
  fuel + retryCount = MAX_RETRIES → k < fuel →
  (∀ j, j < k → transient (service (calls w + j))) →
  service (calls w + k) = Ok res →
  retryLoop service fuel retryCount request w =
  (LoopBreak res,
   {| calls := calls w + S k; log := log w ++ attempts request (S k) |}).
Proof.
  induction k as [|k IH]; intros fuel retryCount w res Hfuel Hk Htr Hok.
  - destruct fuel as [|fuel]; [lia|].
    cbn [retryLoop createTransactionEstimate].
    rewrite Nat.add_0_r in Hok. rewrite Hok. cbn. do 2 f_equal. lia.
  - destruct fuel as [|fuel]; [lia|].
    destruct (Htr 0) as (e & He & Hcode); [lia|].
    rewrite Nat.add_0_r in He.
    rewrite (retryLoop_transient _ _ _ e) by (done || unfold MAX_RETRIES in *; lia).
    rewrite (IH fuel (S retryCount) _ res); cbn [calls log].
    + rewrite attempts_S, <- app_assoc. cbn. do 2 f_equal. lia.
    + lia.
    + lia.
    + intros j Hj. replace (S (calls w) + j) with (calls w + S j) by lia.
      apply Htr. lia.
    + by replace (S (calls w) + k) with (calls w + S k) by lia.
Qed.

(** Nothing but transient failures: the loop gives up on the last
    iteration the guard admits. *)
Lemma retryLoop_exhausted fuel : ∀ retryCount w,
  S fuel + retryCount = MAX_RETRIES →
  (∀ j, j < S fuel → transient (service (calls w + j))) →
  ∃ e, service (calls w + fuel) = Err e ∧
  retryLoop service (S fuel) retryCount request w =
  (LoopReturn (Err (description e)),
   {| calls := calls w + S fuel; log := log w ++ attempts request (S fuel) |}).
Proof.
  induction fuel as [|fuel IH]; intros retryCount w Hfuel Htr.
  - destruct (Htr 0) as (e & He & Hcode); [lia|]. exists e. split; [done|].
    rewrite Nat.add_0_r in He.
    cbn [retryLoop createTransactionEstimate]. rewrite He, Hcode.
    rewrite bool_decide_eq_false_2 by (unfold MAX_RETRIES in *; lia).
    cbn. do 2 f_equal. lia.
  - destruct (Htr 0) as (e & He & Hcode); [lia|].
    rewrite Nat.add_0_r in He.
    rewrite (retryLoop_transient _ _ _ e) by (done || unfold MAX_RETRIES in *; lia).
    destruct (IH (S retryCount)
                {| calls := S (calls w);
                   log := log w ++ [EvCall request; EvSleep 500] |})
      as (e' & He' & ->); cbn [calls log].
    + lia.
    + intros j Hj. replace (S (calls w) + j) with (calls w + S j) by lia.
      apply Htr. lia.
    + exists e'. split.
      * by replace (calls w + S fuel) with (S (calls w) + fuel) by lia.
      * rewrite attempts_S, <- app_assoc. cbn. do 2 f_equal. lia.
Qed.

(** The loop guard never ends the loop: the last admitted iteration
    returns or breaks. *)
Lemma retryLoop_leaves fuel : ∀ retryCount w,
  S fuel + retryCount = MAX_RETRIES →
  (retryLoop service (S fuel) retryCount request w).1 ≠ LoopEnd.
Proof.
  induction fuel as [|fuel IH]; intros retryCount w Hfuel;
    cbn [retryLoop createTransactionEstimate];
    destruct (service (calls w)) as [res|e]; [done| |done|].
  - destruct (statusCode e); [done|].
    by rewrite bool_decide_eq_false_2 by (unfold MAX_RETRIES in *; lia).
  - destruct (statusCode e); [done|].
    rewrite bool_decide_eq_true_2 by (unfold MAX_RETRIES in *; lia).
    apply IH. lia.
Qed.

End Retry.

(** [calculateEmissions] always resolves: it never throws. *)
Lemma calculateEmissions_returns service Big_toString searchTerm category
    amount currency countryCode w :
  ∃ r, (calculateEmissions service Big_toString searchTerm category
          amount currency countryCode w).1 = Returned r.
Proof.
  unfold calculateEmissions.
  pose proof (retryLoop_leaves service
                (mkRequest searchTerm category amount currency countryCode)
                4 0 w eq_refl) as Hne.
  destruct (retryLoop _ _ _ _ _) as [[r|res|] w']; [by eexists..|done].
Qed.

(** C1: a candidate whose call fails transiently (no status code) [k < 5]
    times and then succeeds resolves to a success after exactly [k + 1]
    service calls; a candidate whose call fails transiently on each of the
    five attempts resolves to a failure, carrying the last error, after
    exactly 5 calls.  In both cases what was awaited is [attempts]: the
    calls, with one wait of 500 ms between consecutive calls and none
    anywhere else. *)
Theorem calculateEmissions_retry_policy service Big_toString searchTerm category
    amount currency countryCode :
  let request := mkRequest searchTerm category amount currency countryCode in
  let run := calculateEmissions service Big_toString searchTerm category
               amount currency countryCode newWorld in
  (∀ k res, k < MAX_RETRIES →
     (∀ j, j < k → transient (service j)) → service k = Ok res →
     run = (Returned (Ok (emissionsOf Big_toString currency res)),
            {| calls := S k; log := attempts request (S k) |}))
  ∧ ((∀ j, j < MAX_RETRIES → transient (service j)) →
     ∃ e, service (MAX_RETRIES - 1) = Err e ∧
          run = (Returned (Err (description e)),
                 {| calls := MAX_RETRIES; log := attempts request MAX_RETRIES |}))
  ∧ (∀ n, callsIn (attempts request n) = replicate n request
          ∧ sleepsIn (attempts request n) = replicate (n - 1) 500%Z).
Proof.
  intros request run. split; [|split].
  - intros k res Hk Htr Hok. subst run request. unfold calculateEmissions. cbv zeta.
    by rewrite (retryLoop_success service _ k MAX_RETRIES 0 newWorld res).
  - intros Htr. subst run request. unfold calculateEmissions, MAX_RETRIES in *.
    cbv zeta.
    destruct (retryLoop_exhausted service
                (mkRequest searchTerm category amount currency countryCode)
                4 0 newWorld)
      as (e & He & ->); [done|done|].
    by exists e.
  - intros n. split; [apply callsIn_attempts | apply sleepsIn_attempts].
Qed.

Lemma calculateEmissions_retry_policy_witness :
  calculateEmissions flakyService (λ _, "") "Coffee" None "10" "USD" "USA" newWorld
  = (Returned (Ok (emissionsOf (λ _, "") "USD" WithoutMass)),
     {| calls := 3;
        log := attempts (mkRequest "Coffee" None "10" "USD" "USA") 3 |})
  ∧ ∃ e, deadService 4 = Err e ∧
      calculateEmissions deadService (λ _, "") "Coffee" None "10" "USD" "USA" newWorld
      = (Returned (Err (description e)),
         {| calls := 5;
            log := attempts (mkRequest "Coffee" None "10" "USD" "USA") 5 |}).
Proof.
  split.
  - apply (proj1 (calculateEmissions_retry_policy flakyService (λ _, "")
                    "Coffee" None "10" "USD" "USA") 2 WithoutMass).
    + unfold MAX_RETRIES. lia.
    + intros [|[|j]] Hj; [by eexists..|lia].
    + reflexivity.
  - apply (proj1 (proj2 (calculateEmissions_retry_policy deadService (λ _, "")
                           "Coffee" None "10" "USD" "USA"))).
    intros j _. by eexists.
Defined.

(** C5: a candidate whose call is rejected with a status code resolves to
    a failure after exactly one service call: nothing is retried and
    nothing is waited for. *)
Theorem calculateEmissions_rejection service Big_toString searchTerm category
    amount currency countryCode e :
  service 0 = Err e → is_Some (statusCode e) →
  calculateEmissions service Big_toString searchTerm category
    amount currency countryCode newWorld
  = (Returned (Err (description e)),
     {| calls := 1;
        log := [EvCall (mkRequest searchTerm category amount currency countryCode)] |}).
Proof.
  intros He [code Hcode]. unfold calculateEmissions, MAX_RETRIES.
  cbn [retryLoop createTransactionEstimate newWorld calls log].
  by rewrite He, Hcode.
Qed.

Lemma calculateEmissions_rejection_witness :
  calculateEmissions refusingService (λ _, "") "Coffee" (Some "Food") "10" "USD" "USA"
    newWorld
  = (Returned (Err "unprocessable"),
     {| calls := 1;
        log := [EvCall (mkRequest "Coffee" (Some "Food") "10" "USD" "USA")] |}).
Proof.
  apply (calculateEmissions_rejection refusingService (λ _, "") "Coffee" (Some "Food")
           "10" "USD" "USA"
           {| statusCode := Some 422%Z; description := "unprocessable" |}).
  - reflexivity.
  - by eexists.
Defined.

End AdapterProofs.

(** ** The candidates of a row and its amount *)

Module GeneratorProofs.
Import JsString Generator Samples.

Section Permutations.
Variable searchTerms : list string.
Variable categories : list (option string).

Lemma inner_loop searchTerm : ∀ result,
  foldl (λ result category,
           result ++ [{| searchTerm := searchTerm; category := category |}])
        result categories
  = result ++ (Build_Candidate searchTerm <$> categories).
Proof.
  induction categories as [|c cs IH]; intros result; cbn.
  - by rewrite app_nil_r.
  - by rewrite IH, <- app_assoc.
Qed.

(** The nested loops compute the cross product, search terms outermost. *)
Lemma searchCategoryPermutations_bind :
  searchCategoryPermutations searchTerms categories
  = searchTerms ≫= λ searchTerm, Build_Candidate searchTerm <$> categories.
Proof.
  unfold searchCategoryPermutations.
  enough (∀ result,
    foldl (λ result searchTerm,
             foldl (λ result category,
                      result ++ [{| searchTerm := searchTerm; category := category |}])
                   result categories) result searchTerms
    = result ++ (searchTerms ≫= λ searchTerm, Build_Candidate searchTerm <$> categories))
    as H by apply (H []).
  induction searchTerms as [|s ss IH]; intros result; cbn.
  - by rewrite app_nil_r.
  - by rewrite IH, inner_loop, <- app_assoc.
Qed.

End Permutations.

(** Position [i * n + j] of a concatenation of blocks of length [n]. *)
Lemma lookup_bind_block {A B} (f : A → list B) n (l : list A) : ∀ i j x,
  (∀ y, length (f y) = n) → l !! i = Some x → j < n →
  (l ≫= f) !! (i * n + j) = f x !! j.
Proof.
  induction l as [|y l IH]; intros i j x Hlen Hi Hj; [done|].
  cbn. destruct i as [|i]; simplify_eq/=.
  - rewrite lookup_app_l; [done | rewrite Hlen; lia].
  - rewrite lookup_app_r by (rewrite Hlen; lia).
    rewrite Hlen. replace (n + i * n + j - n) with (i * n + j) by lia.
    by apply IH.
Qed.

Lemma length_bind_block {A B} (f : A → list B) n (l : list A) :
  (∀ y, length (f y) = n) → length (l ≫= f) = length l * n.
Proof.
  intros Hlen. induction l as [|y l IH]; [done|].
  cbn. rewrite length_app, Hlen, IH. lia.
Qed.

Lemma length_categoriesOf categoryColumnsArr row :
  length (categoriesOf categoryColumnsArr row) = max 1 (length categoryColumnsArr).
Proof.
  unfold categoriesOf. destruct categoryColumnsArr as [|c cs]; [done|].
  cbn [length]. rewrite length_fmap. cbn [length]. lia.
Qed.

(** C4: with [S] search-term columns and [C >= 0] category columns a row
    has exactly [S * max 1 C] candidates: every search term paired with
    every category, search terms in the outer position, and with the
    single absent category when there is no category column. *)
Theorem searchPermutations_cross_product searchTermColumnsArr categoryColumnsArr row :
  let searchTerms := searchTermsOf searchTermColumnsArr row in
  let categories := categoriesOf categoryColumnsArr row in
  let candidates := searchPermutationsOf searchTermColumnsArr categoryColumnsArr row in
  length candidates = length searchTermColumnsArr * max 1 (length categoryColumnsArr)
  ∧ candidates
    = (searchTerms ≫= λ searchTerm, Build_Candidate searchTerm <$> categories)
  ∧ length searchTerms = length searchTermColumnsArr
  ∧ length categories = max 1 (length categoryColumnsArr)
  ∧ (categoryColumnsArr = [] → categories = [None])
  ∧ (∀ i j s c, searchTerms !! i = Some s → categories !! j = Some c →
       candidates !! (i * max 1 (length categoryColumnsArr) + j)
       = Some {| searchTerm := s; category := c |}).
Proof.
  intros searchTerms categories candidates.
  assert (Hcat : length categories = max 1 (length categoryColumnsArr))
    by apply length_categoriesOf.
  assert (Hbind : candidates
    = (searchTerms ≫= λ searchTerm, Build_Candidate searchTerm <$> categories))
    by apply searchCategoryPermutations_bind.
  assert (Hst : length searchTerms = length searchTermColumnsArr)
    by apply length_fmap.
  assert (Hblock : ∀ s, length (Build_Candidate s <$> categories)
                        = max 1 (length categoryColumnsArr))
    by (intros s; by rewrite length_fmap).
  repeat split; try done.
  - rewrite Hbind, (length_bind_block _ _ _ Hblock). by rewrite Hst.
  - by intros ->.
  - intros i j s c Hi Hj. rewrite Hbind.
    rewrite (lookup_bind_block _ _ _ i j s Hblock Hi).
    + by rewrite list_lookup_fmap, Hj.
    + rewrite <- Hcat. by eapply lookup_lt_Some.
Qed.

Lemma searchPermutations_cross_product_witness :
  searchPermutationsOf ["Category Level 3"; "Category Level 2"] [] sampleRow
    !! (1 * max 1 (length (@nil string)) + 0)
  = Some {| searchTerm := "Restaurants"; category := None |}.
Proof.
  apply (proj2 (proj2 (proj2 (proj2 (proj2
           (searchPermutations_cross_product
              ["Category Level 3"; "Category Level 2"] [] sampleRow)))))).
  - reflexivity.
  - reflexivity.
Defined.

(** *** The amount *)

Lemma removeCommas_app a b :
  removeCommas (a +:+ b) = removeCommas a +:+ removeCommas b.
Proof.
  induction a as [|c a IH]; [done|].
  simpl. destruct (Ascii.eqb c ","); simpl; by rewrite IH.
Qed.

Lemma removeCommas_id s : hasComma s = false → removeCommas s = s.
Proof.
  induction s as [|c s IH]; [done|].
  cbn. destruct (Ascii.eqb c ","); cbn; [done|].
  intros H. by rewrite IH.
Qed.

Lemma hasComma_removeCommas s : hasComma (removeCommas s) = false.
Proof.
  induction s as [|c s IH]; [done|].
  cbn. destruct (Ascii.eqb c ",") eqn:Hc; [done|].
  cbn. by rewrite Hc.
Qed.

(** The characters of the result are those of the argument that are not
    commas, in the same order. *)
Lemma removeCommas_filter s :
  list_ascii_of_string (removeCommas s)
  = filter (λ c, c ≠ ","%char) (list_ascii_of_string s).
Proof.
  induction s as [|c s IH]; [done|].
  cbn [removeCommas list_ascii_of_string]. rewrite filter_cons.
  destruct (Ascii.eqb_spec c ",") as [->|Hc]; case_decide; try done.
  cbn [list_ascii_of_string]. by rewrite IH.
Qed.

(** C6, as the code has it: the amount is the trimmed cell with every
    comma deleted and every other character kept.  So ["10,00"] becomes
    ["1000"]; the result never holds a comma; a value without commas is
    unchanged; a fractional part written after a decimal point is
    preserved while the separators before it are stripped; and, for every
    cell, the characters of the result are exactly the characters of the
    trimmed cell other than the comma, each as often as in the cell and in
    the same order, so that no character but the comma is dropped, changed
    or added. *)
Theorem amountOf_deletes_commas monetaryAmountColumn row :
  let cell := trim (field row monetaryAmountColumn) in
  (cell = "10,00" → amountOf monetaryAmountColumn row = "1000")
  ∧ hasComma (amountOf monetaryAmountColumn row) = false
  ∧ (hasComma cell = false → amountOf monetaryAmountColumn row = cell)
  ∧ (∀ whole fraction,
       cell = whole +:+ "." +:+ fraction → hasComma fraction = false →
       amountOf monetaryAmountColumn row = removeCommas whole +:+ "." +:+ fraction)
  ∧ list_ascii_of_string (amountOf monetaryAmountColumn row)
    = filter (λ c, c ≠ ","%char) (list_ascii_of_string cell).
Proof.
  intros cell. subst cell. unfold amountOf.
  split; [|split; [|split; [|split]]].
  - by intros ->.
  - apply hasComma_removeCommas.
  - apply removeCommas_id.
  - intros whole fraction Hcell Hfrac.
    rewrite Hcell, removeCommas_app. change ("." +:+ fraction) with (String "." fraction).
    cbn. by rewrite (removeCommas_id fraction).
  - apply removeCommas_filter.
Qed.

Lemma amountOf_deletes_commas_witness :
  amountOf "Sum of Spend" commaRow = "1000"
  ∧ amountOf "Sum of Spend" sampleRow = "1234.50"
  ∧ list_ascii_of_string (amountOf "Sum of Spend" refundRow)
    = list_ascii_of_string "-1000".
Proof.
  split; [|split].
  - apply (proj1 (amountOf_deletes_commas "Sum of Spend" commaRow)). reflexivity.
  - apply (proj1 (proj2 (proj2 (proj2
             (amountOf_deletes_commas "Sum of Spend" sampleRow))))
             "1,234" "50"); reflexivity.
  - etrans;
      [apply (proj2 (proj2 (proj2 (proj2
                (amountOf_deletes_commas "Sum of Spend" refundRow)))))|].
    reflexivity.
Defined.

(** C6, as stated, fails: the amount ["10,00"] is not normalised to
    ["10.00"]. *)
Lemma amountOf_comma_decimal_counterexample :
  amountOf "Sum of Spend" commaRow ≠ "10.00".
Proof. vm_compute. discriminate. Qed.

End GeneratorProofs.

(** ** Ranking and merging *)

Module MergerProofs.
Import Generator Merger Samples.

(** *** The sort *)

Lemma compareFn_le a b : Qle_bool (compareFn a b) 0 = true ↔ byScore a b.
Proof.
  unfold compareFn, byScore. rewrite Qle_bool_iff.
  split; intros H; lra.
Qed.

Lemma compareFn_gt a b : Qle_bool (compareFn a b) 0 = false → byScore b a.
Proof.
  intros H. unfold byScore.
  destruct (Qlt_le_dec (scoreOf b) (scoreOf a)) as [Hlt|Hle].
  - by apply Qlt_le_weak.
  - apply compareFn_le in Hle. congruence.
Qed.

#[local] Instance byScore_trans : Transitive byScore.
Proof. intros a b c. unfold byScore. apply Qle_trans. Qed.

Lemma sortInsert_perm {A} (compare : A → A → Q) x l :
  sortInsert compare x l ≡ₚ x :: l.
Proof.
  induction l as [|y l IH]; [done|].
  cbn. destruct (Qle_bool _ _); [done|].
  by rewrite IH, Permutation_swap.
Qed.

Lemma sort_perm {A} (compare : A → A → Q) l : sort compare l ≡ₚ l.
Proof.
  induction l as [|x l IH]; [done|].
  cbn. by rewrite sortInsert_perm, IH.
Qed.

Lemma sortInsert_sorted x l :
  StronglySorted byScore l → StronglySorted byScore (sortInsert compareFn x l).
Proof.
  induction l as [|y l IH]; intros Hl.
  - repeat constructor.
  - cbn. destruct (Qle_bool (compareFn x y) 0) eqn:Hxy.
    + apply compareFn_le in Hxy. constructor; [done|].
      apply StronglySorted_cons in Hl as [Hy _].
      constructor; [done|].
      eapply Forall_impl; [exact Hy|]. intros z Hz. by etrans.
    + apply compareFn_gt in Hxy.
      apply StronglySorted_cons in Hl as [Hy Hl].
      constructor; [by apply IH|].
      rewrite sortInsert_perm. by constructor.
Qed.

Lemma sort_sorted l : StronglySorted byScore (sort compareFn l).
Proof.
  induction l as [|x l IH]; [constructor|].
  cbn. by apply sortInsert_sorted.
Qed.

(** The sort is stable: results with the same score keep their order. *)
Lemma sortInsert_stable (P : PermutationResult → Prop)
    `{∀ r, Decision (P r)} x l :
  (∀ y, y ∈ l → P x → P y → Qle_bool (compareFn x y) 0 = true) →
  filter P (sortInsert compareFn x l) = filter P (x :: l).
Proof.
  induction l as [|y l IH]; intros Hties; [done|].
  cbn. destruct (Qle_bool (compareFn x y) 0) eqn:Hxy; [done|].
  rewrite filter_cons, IH by (intros z Hz; apply Hties; by right).
  rewrite !filter_cons.
  destruct (decide (P y)) as [Hy|]; [|done].
  destruct (decide (P x)) as [Hx|]; [|done].
  rewrite Hties in Hxy by (done || by left). done.
Qed.

Lemma sort_stable q l :
  filter (λ r, (scoreOf r == q)%Q) (sort compareFn l)
  = filter (λ r, (scoreOf r == q)%Q) l.
Proof.
  induction l as [|x l IH]; [done|].
  cbn [sort foldr]. fold (sort compareFn l).
  rewrite sortInsert_stable.
  - by rewrite !filter_cons, IH.
  - intros y _ Hx Hy. apply compareFn_le. unfold byScore.
    rewrite Hx, Hy. apply Qle_refl.
Qed.

(** *** The keys of the merged object *)

Lemma string_length_app a b :
  String.length (a +:+ b) = String.length a + String.length b.
Proof. induction a as [|c a IH]; [done|]. simpl. by rewrite IH. Qed.

Lemma string_app_inj_r t : ∀ a b, a +:+ t = b +:+ t → a = b.
Proof.
  induction a as [|c a IH]; intros [|d b] H; [done|..].
  - apply (f_equal String.length) in H.
    simpl in H. rewrite !string_length_app in H. simpl in H. lia.
  - apply (f_equal String.length) in H.
    simpl in H. rewrite !string_length_app in H. simpl in H. lia.
  - simpl in H. injection H as -> H. f_equal. by apply IH.
Qed.

(** Distinct columns or distinct ranks give distinct keys. *)
Lemma columnKey_inj c c' idx idx' :
  columnKey c idx = columnKey c' idx' → c = c' ∧ idx = idx'.
Proof.
  intros H. destruct (decide (c = c')) as [->|Hne].
  - split; [done|]. unfold columnKey in H.
    apply (inj (String.append _)) in H. apply (inj (String.append _)) in H.
    apply string_app_inj_r in H. by apply (inj pretty) in H.
  - exfalso. unfold columnKey in H.
    destruct c, c'; try done; cbn [columnName String.append] in H; discriminate H.
Qed.

Section Merge.
Variable Number_toString : Q → string.

Lemma lookup_insert_columns r k c idx (cols : list Column) :
  ∀ acc : gmap string string,
  foldl (λ obj c', <[columnKey c' k := cell Number_toString c' r]> obj) acc cols
    !! columnKey c idx
  = if decide (idx = k ∧ c ∈ cols) then Some (cell Number_toString c r)
    else acc !! columnKey c idx.
Proof.
  induction cols as [|c0 cols IH]; intros acc; cbn.
  - case_decide as H; [|done]. destruct H as [_ H]. by apply elem_of_nil in H.
  - rewrite IH. destruct (decide (c0 = c ∧ k = idx)) as [[-> ->]|Hne].
    + rewrite lookup_insert_eq.
      rewrite (decide_True (P := idx = idx ∧ c ∈ c :: cols)) by (split; [done|left]).
      by case_decide.
    + rewrite lookup_insert_ne
        by (intros Hk; apply columnKey_inj in Hk; naive_solver).
      repeat case_decide; try done.
      * destruct_and!. exfalso. apply H0. split; [done|]. by right.
      * destruct_and!. subst. exfalso. apply H.
        split; [done|]. apply elem_of_cons in H2 as [->|]; [|done]. naive_solver.
Qed.

Lemma elem_of_allColumns c : c ∈ allColumns.
Proof. destruct c; unfold allColumns; set_solver. Qed.

Lemma lookup_mergeEntry acc r i c idx :
  mergeEntry Number_toString acc r i !! columnKey c idx
  = if decide (idx = i + 1) then Some (cell Number_toString c r)
    else acc !! columnKey c idx.
Proof.
  unfold mergeEntry. cbv zeta. rewrite lookup_insert_columns.
  pose proof (elem_of_allColumns c). repeat case_decide; naive_solver.
Qed.

Lemma lookup_reduceFrom l : ∀ k acc c idx,
  reduceFrom (mergeEntry Number_toString) k l acc !! columnKey c idx
  = if decide (k < idx ≤ k + length l)
    then cell Number_toString c <$> l !! (idx - 1 - k)
    else acc !! columnKey c idx.
Proof.
  induction l as [|x l IH]; intros k acc c idx; cbn [reduceFrom length].
  - case_decide; [lia|done].
  - rewrite IH, lookup_mergeEntry.
    destruct (decide (idx = k + 1)) as [->|Hne].
    + rewrite decide_False, decide_True by lia.
      by replace (k + 1 - 1 - k) with 0 by lia.
    + destruct (decide (S k < idx ≤ S k + length l)) as [Hin|Hout].
      * rewrite decide_True by lia.
        by replace (idx - 1 - k) with (S (idx - 1 - S k)) by lia.
      * by rewrite decide_False by lia.
Qed.

(** The columns of rank [i + 1] are those of the result at position [i];
    there are no columns of other ranks. *)
Lemma lookup_resultObj sorted c i :
  resultObj Number_toString sorted !! columnKey c (S i)
  = cell Number_toString c <$> sorted !! i.
Proof.
  unfold resultObj, reduce. rewrite lookup_reduceFrom.
  replace (S i - 1 - 0) with i by lia.
  case_decide as H; [done|].
  rewrite lookup_empty, lookup_ge_None_2; [done|lia].
Qed.

Lemma lookup_resultObj_is_Some sorted c idx :
  is_Some (resultObj Number_toString sorted !! columnKey c idx)
  ↔ (1 ≤ idx ≤ length sorted)%nat.
Proof.
  destruct idx as [|i].
  - unfold resultObj, reduce. rewrite lookup_reduceFrom.
    rewrite decide_False, lookup_empty by lia.
    split; [by intros [? ?]|lia].
  - rewrite lookup_resultObj, fmap_is_Some, lookup_lt_is_Some. lia.
Qed.

End Merge.

(** *** The ranking *)

Lemma sorted_perm (permutationsResults : list PermutationResult) :
  sortedPermutationResults permutationsResults ≡ₚ permutationsResults.
Proof.
  unfold sortedPermutationResults, withConfidenceResults, noConfidenceResults.
  rewrite sort_perm.
  induction permutationsResults as [|r l IH]; [done|].
  rewrite !filter_cons.
  destruct (isNullish (score r)); cbn; repeat case_decide; try done.
  - by rewrite <- Permutation_middle, IH.
  - cbn. by rewrite IH.
Qed.

Lemma StronglySorted_lookup {A} (R : relation A) l i j a b :
  StronglySorted R l → i < j → l !! i = Some a → l !! j = Some b → R a b.
Proof.
  intros Hl Hij Hi Hj. rewrite <- (take_drop j l) in Hl.
  eapply StronglySorted_app_1_elem_of; [exact Hl|..].
  - apply elem_of_take. eauto.
  - apply list_elem_of_lookup. exists 0. by rewrite lookup_drop, Nat.add_0_r.
Qed.

(** C2: the ranked sequence is the results carrying a score, sorted by
    non-decreasing score, followed by the results without a score in the
    order in which the ranker received them; the columns of rank [i + 1]
    are those of the result at position [i] of this concatenation. *)
Theorem ranked_scored_then_unscored Number_toString
    (permutationsResults : list PermutationResult) :
  let scored := sort compareFn (withConfidenceResults permutationsResults) in
  let unscored := noConfidenceResults permutationsResults in
  let ranked := sortedPermutationResults permutationsResults in
  ranked = scored ++ unscored
  ∧ scored ≡ₚ filter (λ r, isNullish (score r) = false) permutationsResults
  ∧ length scored
    = length (filter (λ r, isNullish (score r) = false) permutationsResults)
  ∧ StronglySorted byScore scored
  ∧ unscored = filter (λ r, isNullish (score r) = true) permutationsResults
  ∧ unscored `sublist_of` permutationsResults
  ∧ ranked ≡ₚ permutationsResults
  ∧ ∀ c i, resultObj Number_toString ranked !! columnKey c (S i)
           = cell Number_toString c <$> ranked !! i.
Proof.
  intros scored unscored ranked.
  assert (Hs : scored ≡ₚ filter (λ r, isNullish (score r) = false) permutationsResults).
  { subst scored. rewrite sort_perm. unfold withConfidenceResults.
    clear. induction permutationsResults as [|r l IH]; [done|].
    rewrite !filter_cons.
    destruct (isNullish (score r)); cbn; repeat case_decide; try done.
    by rewrite IH. }
  assert (Hu : unscored = filter (λ r, isNullish (score r) = true) permutationsResults).
  { subst unscored. unfold noConfidenceResults.
    clear. induction permutationsResults as [|r l IH]; [done|].
    rewrite !filter_cons.
    destruct (isNullish (score r)); cbn; repeat case_decide; try done.
    by rewrite IH. }
  repeat split.
  - exact Hs.
  - by rewrite Hs.
  - apply sort_sorted.
  - exact Hu.
  - rewrite Hu. apply sublist_filter.
  - apply sorted_perm.
  - intros c i. apply lookup_resultObj.
Qed.

(** C9, as the code has it: a result whose score is exactly 0 is ranked
    within the scored prefix, hence before every result without a score;
    only results of score at most 0 precede it; when no score is negative
    only results of score 0 can, and it is ranked first when, in addition,
    it is the only scored result of score 0; yet its confidence column is
    the empty string, the same as the column of a result without a
    score. *)
Theorem zero_score_ranked_but_blank Number_toString
    (permutationsResults : list PermutationResult) r q :
  r ∈ permutationsResults → score r = ScoreNumber q → (q == 0)%Q →
  let ranked := sortedPermutationResults permutationsResults in
  ∃ p, ranked !! p = Some r
    ∧ p < length (withConfidenceResults permutationsResults)
    ∧ (∀ j u, ranked !! j = Some u → isNullish (score u) = true → p < j)
    ∧ (∀ j s, j < p → ranked !! j = Some s → (scoreOf s <= 0)%Q)
    ∧ ((∀ s, s ∈ permutationsResults → (0 <= scoreOf s)%Q) →
       ∀ j s, j < p → ranked !! j = Some s → (scoreOf s == 0)%Q)
    ∧ ((∀ s, s ∈ permutationsResults → (0 <= scoreOf s)%Q) →
       (∀ s, s ∈ permutationsResults → isNullish (score s) = false →
             (scoreOf s == 0)%Q → s = r) →
       ranked !! 0 = Some r)
    ∧ resultObj Number_toString ranked !! columnKey ConfidenceScore (S p) = Some ""
    ∧ (∀ u, isNullish (score u) = true →
         cell Number_toString ConfidenceScore u
         = cell Number_toString ConfidenceScore r).
Proof.
  intros Hr Hscore Hq ranked.
  set (scored := sort compareFn (withConfidenceResults permutationsResults)).
  assert (Hlen : length scored = length (withConfidenceResults permutationsResults))
    by (unfold scored; by rewrite sort_perm).
  assert (Hin : r ∈ scored).
  { unfold scored. rewrite sort_perm. apply list_elem_of_filter.
    split; [|done]. by rewrite Hscore. }
  apply list_elem_of_lookup_1 in Hin as [p Hp].
  assert (Hplt : p < length scored) by (by eapply lookup_lt_Some).
  assert (Hranked : ∀ j, j < length scored → ranked !! j = scored !! j)
    by (intros j Hj; unfold ranked, sortedPermutationResults; by apply lookup_app_l).
  assert (Hzero : (scoreOf r == 0)%Q) by (unfold scoreOf; by rewrite Hscore).
  assert (Hbefore : ∀ j s, j < p → ranked !! j = Some s → byScore s r).
  { intros j s Hj Hs. rewrite Hranked in Hs by lia.
    eapply (StronglySorted_lookup byScore scored j p); eauto using sort_sorted. }
  assert (Hcell : cell Number_toString ConfidenceScore r = "").
  { cbn. rewrite Hscore. cbn. by rewrite (proj2 (Qeq_bool_iff q 0) Hq). }
  assert (Hties : (∀ s, s ∈ permutationsResults → (0 <= scoreOf s)%Q) →
                  ∀ j s, j < p → ranked !! j = Some s → (scoreOf s == 0)%Q).
  { intros Hnonneg j s Hj Hs. specialize (Hbefore j s Hj Hs).
    unfold byScore in Hbefore. rewrite Hzero in Hbefore.
    apply Qle_antisym; [done|]. apply Hnonneg.
    rewrite <- (sorted_perm permutationsResults). by eapply list_elem_of_lookup_2. }
  exists p. repeat split.
  - by rewrite Hranked.
  - lia.
  - intros j u Hu Hnull.
    destruct (decide (j < length scored)) as [Hj|Hj]; [|lia].
    rewrite Hranked in Hu by done. apply list_elem_of_lookup_2 in Hu.
    unfold scored in Hu. rewrite sort_perm in Hu.
    apply list_elem_of_filter in Hu as [Hu _]. by rewrite Hnull in Hu.
  - intros j s Hj Hs. specialize (Hbefore j s Hj Hs).
    unfold byScore in Hbefore. by rewrite Hzero in Hbefore.
  - intros Hnonneg j s Hj Hs. by apply (Hties Hnonneg j s).
  - intros Hnonneg Honly. destruct p as [|p]; [by rewrite Hranked|].
    destruct (lookup_lt_is_Some_2 scored 0) as [h Hh]; [lia|].
    rewrite Hranked, Hh by lia. f_equal.
    assert (Hmem : h ∈ withConfidenceResults permutationsResults)
      by (rewrite <- (sort_perm compareFn); by eapply list_elem_of_lookup_2).
    apply list_elem_of_filter in Hmem as [Hnum Hmem].
    apply Honly; [done|by destruct (isNullish (score h))|].
    apply (Hties Hnonneg 0 h); [lia|by rewrite Hranked by lia].
  - rewrite lookup_resultObj, Hranked, Hp by done. cbn [fmap option_fmap option_map].
    by rewrite Hcell.
  - intros u Hu. rewrite Hcell. cbn. by destruct (score u).
Qed.

Lemma zero_score_ranked_but_blank_witness :
  ∃ p, sortedPermutationResults sampleResults !! p = Some (scoredEntry "Cafes" 0)
    ∧ resultObj (λ _, "0.9") (sortedPermutationResults sampleResults)
        !! columnKey ConfidenceScore (S p) = Some "".
Proof.
  destruct (zero_score_ranked_but_blank (λ _, "0.9") sampleResults
              (scoredEntry "Cafes" 0) 0%Q) as (p & Hp & _ & _ & _ & _ & _ & Hcol & _).
  - unfold sampleResults. set_solver.
  - reflexivity.
  - reflexivity.
  - exists p. by split.
Defined.

(** C9, as stated, fails: a result of score exactly 0 need not be the
    first of the scored results.  Of two results of score 0 the later one
    is ranked second, and a result of negative score is ranked before a
    result of score 0. *)
Lemma zero_score_not_first_counterexample :
  score (scoredEntry "Bars" 0) = ScoreNumber 0
  ∧ sortedPermutationResults [scoredEntry "Cafes" 0; scoredEntry "Bars" 0]
    = [scoredEntry "Cafes" 0; scoredEntry "Bars" 0]
  ∧ sortedPermutationResults [scoredEntry "Cafes" 0; scoredEntry "Bars" 0] !! 0
    ≠ Some (scoredEntry "Bars" 0)
  ∧ sortedPermutationResults [scoredEntry "Cafes" 0; scoredEntry "Refund" (-1)]
    = [scoredEntry "Refund" (-1); scoredEntry "Cafes" 0]
  ∧ sortedPermutationResults [scoredEntry "Cafes" 0; scoredEntry "Refund" (-1)] !! 0
    ≠ Some (scoredEntry "Cafes" 0).
Proof.
  split; [reflexivity|]. split; [reflexivity|].
  split; [vm_compute; discriminate|]. split; [reflexivity|].
  vm_compute. discriminate.
Qed.

(** *** The tasks of one row *)

Lemma length_bind_ones {A B} (f : A → list B) (l : list A) :
  (∀ x, x ∈ l → length (f x) = 1) → length (l ≫= f) = length l.
Proof.
  induction l as [|x l IH]; intros Hone; [done|].
  cbn. rewrite length_app, Hone, IH; [done| |left].
  intros y Hy. apply Hone. by right.
Qed.

Section Row.
Variable services : nat → nat → Adapter.Reply.
Variable Big_toString : Q → string.
Variable Number_toString : Q → string.
Variable searchPermutations : list Candidate.
Variables amount currency countryCode : string.

#[local] Abbreviation runTask' :=
  (runTask services Big_toString searchPermutations amount currency countryCode).
#[local] Abbreviation outcome' :=
  (outcome services Big_toString searchPermutations amount currency countryCode).
#[local] Abbreviation runSchedule' :=
  (runSchedule services Big_toString searchPermutations amount currency countryCode).
#[local] Abbreviation step' :=
  (step services Big_toString searchPermutations amount currency countryCode).
#[local] Abbreviation finish' :=
  (finish services Big_toString searchPermutations amount currency countryCode).
#[local] Abbreviation started' := (started searchPermutations).

Lemma runTask_app i results : runTask' i results = results ++ outcome' i.
Proof.
  unfold outcome, runTask. destruct (searchPermutations !! i) as [c|].
  - destruct (Adapter.calculateEmissions _ _ _ _ _ _ _ _).1 as [[e|error]|];
      [done..|by rewrite app_nil_r].
  - by rewrite app_nil_r.
Qed.

(** A task whose candidate exists pushes exactly one entry. *)
Lemma outcome_length i :
  i < length searchPermutations → length (outcome' i) = 1.
Proof.
  intros Hi. apply lookup_lt_is_Some in Hi as [c Hc].
  unfold outcome, runTask. rewrite Hc.
  destruct (AdapterProofs.calculateEmissions_returns (services i) Big_toString
              (searchTerm c) (category c) amount currency countryCode
              Adapter.newWorld) as [r ->].
  by destruct r.
Qed.

Lemma runSchedule_snoc schedule i :
  runSchedule' (schedule ++ [i]) = finish' i (runSchedule' schedule).
Proof. unfold runSchedule. by rewrite foldl_snoc. Qed.

(** From any state the remaining tasks can finish, one after the other,
    and then the join resumes. *)
Lemma finish_rest (rest : list nat) : ∀ st,
  NoDup rest → (∀ i, i ∈ rest → i ∈ pending st) →
  rtc step' st (foldl (λ st i, finish' i st) st rest)
  ∧ pending (foldl (λ st i, finish' i st) st rest) = pending st ∖ list_to_set rest.
Proof.
  induction rest as [|i rest IH]; intros st Hnd Hin; cbn [foldl].
  - split; [apply rtc_refl|]. cbn. set_solver.
  - apply NoDup_cons in Hnd as [Hfresh Hnd].
    destruct (IH (finish' i st) Hnd) as [Hsteps Hpending].
    + intros j Hj. cbn. apply elem_of_difference. split.
      * apply Hin. by right.
      * rewrite elem_of_singleton. by intros ->.
    + split.
      * eapply rtc_l; [|exact Hsteps]. constructor. apply Hin. by left.
      * rewrite Hpending. cbn. set_solver.
Qed.

Lemma join_resumes st : ∃ st', rtc step' st st' ∧ joined st'.
Proof.
  destruct (finish_rest (elements (pending st)) st) as [Hsteps Hpending].
  - apply NoDup_elements.
  - intros i. by rewrite elem_of_elements.
  - eexists. split; [exact Hsteps|].
    unfold joined. rewrite Hpending, list_to_set_elements_L. set_solver.
Qed.

Lemma pending_runSchedule schedule :
  pending (runSchedule' schedule)
  = list_to_set (seq 0 (length searchPermutations)) ∖ list_to_set schedule.
Proof.
  induction schedule as [|i schedule IH] using rev_ind.
  - cbn. set_solver.
  - rewrite runSchedule_snoc. cbn [pending finish]. rewrite IH, list_to_set_app_L.
    set_solver.
Qed.

Lemma results_runSchedule schedule :
  permutationsResults (runSchedule' schedule) = schedule ≫= outcome'.
Proof.
  induction schedule as [|i schedule IH] using rev_ind; [done|].
  rewrite runSchedule_snoc. cbn [permutationsResults finish].
  rewrite runTask_app, IH, bind_app. cbn. by rewrite app_nil_r.
Qed.

(** Every reachable state is the state after some schedule without
    repetition. *)
Lemma reachable_schedule st :
  rtc step' started' st →
  ∃ schedule, NoDup schedule
    ∧ (∀ i, i ∈ schedule → i < length searchPermutations)
    ∧ st = runSchedule' schedule.
Proof.
  revert st. apply rtc_ind_r.
  - exists []. split; [constructor|]. split; [|done].
    intros i Hi. by apply elem_of_nil in Hi.
  - intros st st' _ Hstep IH.
    destruct IH as (schedule & Hnd & Hlt & ->).
    inversion Hstep as [i st0 Hi]; subst.
    rewrite pending_runSchedule in Hi.
    apply elem_of_difference in Hi as [Hi Hfresh].
    rewrite elem_of_list_to_set, elem_of_seq in Hi.
    rewrite elem_of_list_to_set in Hfresh.
    exists (schedule ++ [i]). split; [|split].
    + apply NoDup_app. split; [done|]. split; [|apply NoDup_singleton].
      intros x Hx Hxi. apply list_elem_of_singleton in Hxi. by subst.
    + intros x Hx. apply elem_of_app in Hx as [Hx|Hx]; [by apply Hlt|].
      apply list_elem_of_singleton in Hx. subst. lia.
    + by rewrite runSchedule_snoc.
Qed.

(** Conversely every such schedule is a run of the tasks. *)
Lemma runSchedule_reachable schedule :
  NoDup schedule → (∀ i, i ∈ schedule → i < length searchPermutations) →
  rtc step' started' (runSchedule' schedule).
Proof.
  induction schedule as [|i schedule IH] using rev_ind; intros Hnd Hlt.
  - apply rtc_refl.
  - apply NoDup_app in Hnd as (Hnd & Hfresh & _).
    eapply rtc_r.
    + apply IH; [done|]. intros x Hx. apply Hlt, elem_of_app. by left.
    + rewrite runSchedule_snoc. constructor.
      rewrite pending_runSchedule. apply elem_of_difference. split.
      * rewrite elem_of_list_to_set, elem_of_seq.
        specialize (Hlt i). rewrite elem_of_app, list_elem_of_singleton in Hlt.
        specialize (Hlt (or_intror eq_refl)). lia.
      * rewrite elem_of_list_to_set. intros Hi.
        apply (Hfresh i Hi). by apply list_elem_of_singleton.
Qed.

(** When the join resumes, every task has finished exactly once. *)
Lemma joined_schedule schedule :
  NoDup schedule → (∀ i, i ∈ schedule → i < length searchPermutations) →
  joined (runSchedule' schedule) →
  schedule ≡ₚ seq 0 (length searchPermutations).
Proof.
  intros Hnd Hlt Hjoin. unfold joined in Hjoin.
  rewrite pending_runSchedule in Hjoin.
  apply NoDup_Permutation; [done|apply NoDup_seq|].
  intros i. rewrite elem_of_seq. split.
  - intros Hi. specialize (Hlt i Hi). lia.
  - intros Hi. destruct (decide (i ∈ schedule)) as [|Hni]; [done|].
    exfalso. assert (i ∈ (∅ : gset nat)) as Hempty; [|set_solver].
    rewrite <- Hjoin. apply elem_of_difference.
    rewrite !elem_of_list_to_set, elem_of_seq. split; [lia|done].
Qed.

(** C7, as the code has it: the entry pushed for a candidate whose outcome
    is a failure is unscored, reads ["Error: <text>"] in place of the
    factor name and is empty in every other field, the search term used
    and the category used included; in the merged output its two unit
    columns read ["CO2e/"] and every other column but the factor name is
    empty. *)
Theorem failure_entry_is_blank i c error results :
  searchPermutations !! i = Some c →
  (Adapter.calculateEmissions (services i) Big_toString (searchTerm c) (category c)
     amount currency countryCode Adapter.newWorld).1 = Returned (Err error) →
  let entry := failureEntry error in
  runTask' i results = results ++ [entry]
  ∧ score entry = ScoreNull
  ∧ entry ∈ noConfidenceResults (results ++ [entry])
  ∧ name entry = "Error: " +:+ error
  ∧ searchTermUsed entry = "" ∧ categoryUsed entry = ""
  ∧ (∀ col, cell Number_toString col entry
            = match col with
              | EmissionFactorName => "Error: " +:+ error
              | EmissionFactorIntensityUnit | EmissionFactorOriginalUnit => "CO2e/"
              | _ => ""
              end)
  ∧ (∀ ranked p col, ranked !! p = Some entry →
       resultObj Number_toString ranked !! columnKey col (S p)
       = Some (cell Number_toString col entry)).
Proof.
  intros Hc Herr entry.
  split; [unfold runTask; by rewrite Hc, Herr|].
  split; [done|]. split.
  { unfold noConfidenceResults. apply list_elem_of_filter. split; [done|].
    apply elem_of_app. right. by left. }
  do 3 (split; [done|]). split.
  - intros col. by destruct col.
  - intros ranked p col Hp. by rewrite lookup_resultObj, Hp.
Qed.

(** C8: when the join resumes, every candidate has produced exactly one
    outcome, so the ranker receives as many results as there are
    candidates, and the ranks under which the merged output holds columns
    are exactly [1..N], rank [p + 1] holding the result at position [p];
    and from every state of the tasks the join can resume. *)
Theorem every_candidate_ranked_once st :
  rtc step' started' st → joined st →
  let N := length searchPermutations in
  let ranked := sortedPermutationResults (permutationsResults st) in
  (∀ i, i < N → length (outcome' i) = 1)
  ∧ permutationsResults st ≡ₚ (seq 0 N ≫= outcome')
  ∧ length (permutationsResults st) = N
  ∧ length ranked = N
  ∧ (∀ col idx, is_Some (resultObj Number_toString ranked !! columnKey col idx)
                ↔ (1 ≤ idx ≤ N)%nat)
  ∧ (∀ col p, resultObj Number_toString ranked !! columnKey col (S p)
              = cell Number_toString col <$> ranked !! p)
  ∧ (∀ st0, ∃ st', rtc step' st0 st' ∧ joined st').
Proof.
  intros Hreach Hjoin N ranked.
  destruct (reachable_schedule st Hreach) as (schedule & Hnd & Hlt & ->).
  pose proof (joined_schedule schedule Hnd Hlt Hjoin) as Hperm.
  assert (Hres : permutationsResults (runSchedule' schedule) ≡ₚ (seq 0 N ≫= outcome'))
    by (by rewrite results_runSchedule, Hperm).
  assert (Hlen : length (permutationsResults (runSchedule' schedule)) = N).
  { rewrite results_runSchedule, length_bind_ones.
    - by rewrite Hperm, length_seq.
    - intros i Hi. apply outcome_length. by apply Hlt. }
  assert (Hranked : length ranked = N)
    by (unfold ranked; by rewrite sorted_perm).
  split; [intros i Hi; by apply outcome_length|].
  do 3 (split; [done|]). split; [|split].
  - intros col idx. rewrite lookup_resultObj_is_Some. lia.
  - intros col p. apply lookup_resultObj.
  - apply join_resumes.
Qed.

End Row.

Lemma failure_entry_is_blank_witness :
  runTask sampleServices (λ _, "") sampleCandidates "10" "USD" "USA" 0 []
  = [failureEntry "unprocessable"]
  ∧ cell (λ _, "") SearchTermUsed (failureEntry "unprocessable") = "".
Proof.
  destruct (failure_entry_is_blank sampleServices (λ _, "") (λ _, "")
              sampleCandidates "10" "USD" "USA" 0
              {| searchTerm := "Coffee"; category := Some "Food" |}
              "unprocessable" [])
    as (Hrun & _ & _ & _ & _ & _ & Hcell & _).
  - reflexivity.
  - reflexivity.
  - split; [exact Hrun | exact (Hcell SearchTermUsed)].
Defined.

(** C7, as stated, fails: the merged entry of a rejected candidate does
    not carry the candidate's search term or category. *)
Lemma failure_entry_candidate_counterexample :
  let results :=
    runTask sampleServices (λ _, "") sampleCandidates "10" "USD" "USA" 0 [] in
  let merged := resultObj (λ _, "") (sortedPermutationResults results) in
  sampleCandidates !! 0 = Some {| searchTerm := "Coffee"; category := Some "Food" |}
  ∧ merged !! "Emission factor name (1)" = Some "Error: unprocessable"
  ∧ merged !! "Search term used (1)" ≠ Some "Coffee"
  ∧ merged !! "Category used (1)" ≠ Some "Food".
Proof. vm_compute. repeat split; discriminate. Qed.

Lemma every_candidate_ranked_once_witness :
  length (permutationsResults
            (runSchedule sampleServices (λ _, "") sampleCandidates "10" "USD" "USA"
               [1; 0])) = 2.
Proof.
  destruct (every_candidate_ranked_once sampleServices (λ _, "") (λ _, "")
              sampleCandidates "10" "USD" "USA"
              (runSchedule sampleServices (λ _, "") sampleCandidates "10" "USD" "USA"
                 [1; 0]))
    as (_ & _ & Hlen & _).
  - apply runSchedule_reachable.
    + apply NoDup_cons. split; [|apply NoDup_singleton].
      intros H. apply list_elem_of_singleton in H. discriminate H.
    + intros i Hi. apply elem_of_cons in Hi as [->|Hi]; [cbn; lia|].
      apply list_elem_of_singleton in Hi as ->. cbn; lia.
  - unfold joined. rewrite pending_runSchedule. reflexivity.
  - exact Hlen.
Defined.

End MergerProofs.

(** ** Loading, driving and writing *)

Module DriverProofs.
Import Loader Driver Samples.

(** C10: a file that parses to zero records makes [loadCsv] fail with
    ["The array is empty"], whatever columns are asked for, and [main]
    exits with status 1 having processed no row and written no file. *)
Theorem loadCsv_rejects_header_only services schedules Big_toString Number_toString
    toString readFile parseCsv (o : Options) buffer :
  readFile (filename o) = Ok buffer → parseCsv buffer = Ok (JsArray []) →
  loadCsv toString readFile parseCsv (filename o) (columns o)
  = Err "The array is empty"
  ∧ main services schedules Big_toString Number_toString toString readFile parseCsv o
    = {| exit := ProcessExit 1 "The array is empty";
         written := ∅; rowsProcessed := 0 |}.
Proof.
  intros Hread Hparse.
  assert (Hload : loadCsv toString readFile parseCsv (filename o) (columns o)
                  = Err "The array is empty").
  { unfold loadCsv, readFileChecked. rewrite Hread. cbn [andThen].
    unfold parseCsvChecked. by rewrite Hparse. }
  split; [done|]. unfold main. by rewrite Hload.
Qed.

Lemma loadCsv_rejects_header_only_witness :
  loadCsv (λ _, "") readHeaderOnly parseNoRecords "template.csv" (columns sampleOptions)
  = Err "The array is empty".
Proof.
  apply (proj1 (loadCsv_rejects_header_only (λ _ _ _, Ok Adapter.WithoutMass)
                  (λ _, []) (λ _, "") (λ _, "") (λ _, "")
                  readHeaderOnly parseNoRecords sampleOptions headerOnly
                  eq_refl eq_refl)).
Defined.

(** *** Integer division *)

Lemma rem_block C m o :
  (0 ≤ m)%Z → (0 ≤ o < C)%Z →
  Z.rem (C * m + o + 1) C = 0%Z ↔ (o + 1)%Z = C.
Proof.
  intros Hm Ho. rewrite Z.rem_mod_nonneg by nia.
  destruct (decide (o + 1 = C)%Z) as [Heq|Hne].
  - split; [done|]. intros _.
    replace (C * m + o + 1)%Z with ((m + 1) * C)%Z by lia.
    apply Z.mod_mul. lia.
  - split; [|done]. intros Hmod.
    rewrite <- (Z.mod_unique_pos (C * m + o + 1) C m (o + 1)) in Hmod by lia. lia.
Qed.

Lemma floorDiv_block C m o : (0 ≤ o < C)%Z → floorDiv (C * m + o) C = m.
Proof.
  intros Ho. unfold floorDiv. symmetry.
  by apply (Z.div_unique_pos _ _ m o).
Qed.

Lemma ceilDiv_block C m o :
  (0 ≤ o < C)%Z →
  ceilDiv (C * m + o) C = if decide (o = 0%Z) then m else (m + 1)%Z.
Proof.
  intros Ho. unfold ceilDiv. case_decide as Hz.
  - rewrite <- (Z.div_unique_pos (- (C * m + o)) C (- m) 0); lia.
  - rewrite <- (Z.div_unique_pos (- (C * m + o)) C (- m - 1) (C - o)); lia.
Qed.

Lemma ceilDiv_succ_block C m o :
  (0 ≤ o < C)%Z → ceilDiv (C * m + o + 1) C = (m + 1)%Z.
Proof.
  intros Ho. destruct (decide (o + 1 = C)%Z) as [Heq|Hne].
  - replace (C * m + o + 1)%Z with (C * (m + 1) + 0)%Z by lia.
    rewrite ceilDiv_block by lia. by rewrite decide_True.
  - replace (C * m + o + 1)%Z with (C * m + (o + 1))%Z by lia.
    rewrite ceilDiv_block by lia. by rewrite decide_False by lia.
Qed.

(** *** The chunk files *)

Section Chunks.
Context {OutRow : Type}.
Implicit Types (chunks : list (list OutRow)) (fs : gmap Z (list OutRow)).

Lemma sorted_suffixes a n : Sorted Z.le (Z.of_nat <$> seq a n).
Proof.
  revert a. induction n as [|n IH]; intros a; [constructor|].
  cbn. constructor; [apply IH|].
  destruct n; cbn; constructor. lia.
Qed.

Lemma sorted_suffixes_snoc m s :
  (Z.of_nat m ≤ s)%Z → Sorted Z.le ((Z.of_nat <$> seq 0 m) ++ [s]).
Proof.
  intros Hs. apply StronglySorted_Sorted, StronglySorted_app_2.
  - intros x y Hx Hy. apply list_elem_of_fmap in Hx as (k & -> & Hk).
    apply elem_of_seq in Hk. apply list_elem_of_singleton in Hy. lia.
  - apply Sorted_StronglySorted; [apply _|apply sorted_suffixes].
  - repeat constructor.
Qed.

Lemma holds_empty : holds (OutRow := OutRow) [] ∅.
Proof. intros z. rewrite lookup_empty. by case_decide. Qed.

Lemma holds_is_Some chunks fs z :
  holds chunks fs →
  is_Some (fs !! z) ↔ (0 ≤ z < Z.of_nat (length chunks))%Z.
Proof.
  intros Hfs. rewrite Hfs. case_decide.
  - rewrite lookup_lt_is_Some. lia.
  - split; [by intros [? ?]|lia].
Qed.

Lemma holds_lookup chunks fs (k : nat) :
  holds chunks fs → fs !! Z.of_nat k = chunks !! k.
Proof.
  intros Hfs. rewrite Hfs, decide_True by lia. by rewrite Nat2Z.id.
Qed.

(** A whole chunk goes to the next suffix. *)
Lemma holds_snoc chunks fs chunk :
  holds chunks fs →
  holds (chunks ++ [chunk]) (<[Z.of_nat (length chunks) := chunk]> fs).
Proof.
  intros Hfs z. destruct (decide (z = Z.of_nat (length chunks))) as [->|Hne].
  - rewrite lookup_insert_eq, decide_True by lia.
    rewrite Nat2Z.id, lookup_app_r by done.
    by rewrite Nat.sub_diag.
  - rewrite lookup_insert_ne by done. rewrite Hfs.
    case_decide as Hz; [|done].
    destruct (decide (Z.to_nat z < length chunks)) as [Hlt|Hge].
    + by rewrite lookup_app_l.
    + rewrite !lookup_ge_None_2; [done|rewrite length_app; cbn; lia|lia].
Qed.

(** The last write: a suffix not used so far, hence a new file that
    comes last in suffix order. *)
Lemma holds_last chunks fs s chunk :
  holds chunks fs → (Z.of_nat (length chunks) ≤ s)%Z →
  size (<[s := chunk]> fs) = S (length chunks)
  ∧ chunksAscending (<[s := chunk]> fs) = chunks ++ [chunk].
Proof.
  intros Hfs Hs.
  assert (Hperm : elements (dom (<[s := chunk]> fs))
                  ≡ₚ (Z.of_nat <$> seq 0 (length chunks)) ++ [s]).
  { apply NoDup_Permutation.
    - apply NoDup_elements.
    - apply NoDup_app. split; [|split].
      + apply NoDup_fmap; [apply _|apply NoDup_seq].
      + intros x Hx Hxs. apply list_elem_of_fmap in Hx as (k & -> & Hk).
        apply elem_of_seq in Hk. apply list_elem_of_singleton in Hxs. lia.
      + apply NoDup_singleton.
    - intros z. rewrite elem_of_elements, elem_of_dom, lookup_insert_is_Some'.
      rewrite (holds_is_Some chunks fs z Hfs).
      rewrite elem_of_app, list_elem_of_singleton, list_elem_of_fmap.
      split.
      + intros [->|Hz]; [by right|left].
        exists (Z.to_nat z). rewrite elem_of_seq. lia.
      + intros [(k & -> & Hk)| ->]; [right|by left].
        apply elem_of_seq in Hk. lia. }
  assert (Hkeys : merge_sort Z.le (elements (dom (<[s := chunk]> fs)))
                  = (Z.of_nat <$> seq 0 (length chunks)) ++ [s]).
  { apply (Sorted_unique Z.le).
    - apply Sorted_merge_sort. apply _.
    - by apply sorted_suffixes_snoc.
    - by rewrite merge_sort_Permutation. }
  split.
  - rewrite <- size_dom. unfold size, set_size. cbn.
    rewrite Hperm, length_app, length_fmap, length_seq. cbn. lia.
  - unfold chunksAscending. rewrite Hkeys, fmap_app. cbn.
    rewrite lookup_insert_eq. cbn. f_equal.
    apply list_eq. intros k. rewrite <- list_fmap_compose, list_lookup_fmap.
    destruct (decide (k < length chunks)) as [Hk|Hk].
    + rewrite lookup_seq_lt by done. cbn.
      rewrite lookup_insert_ne by lia.
      rewrite (holds_lookup chunks fs k Hfs).
      apply lookup_lt_is_Some in Hk as [chunk' Hk]. by rewrite Hk.
    + rewrite lookup_seq_ge by lia. cbn. symmetry. apply lookup_ge_None_2. lia.
Qed.

End Chunks.

(** *** The loop of the writer *)

Section Loop.
Context {OutRow : Type}.
Variables C R : Z.
Implicit Types (w : Writer (OutRow := OutRow)) (chunks : list (list OutRow)).

Lemma buffered_start : (1 ≤ C)%Z → buffered C [] (emptyWriter (OutRow := OutRow)) [].
Proof.
  intros HC. split; [apply holds_empty|]. split; [constructor|]. cbn.
  repeat split; lia.
Qed.

(** An iteration that is not the last one keeps the invariant: the row
    is buffered, or completes a chunk that is written under the next
    suffix. *)
Lemma pushRow_middle pushed w chunks merged :
  (2 ≤ C)%Z → buffered C pushed w chunks →
  Z.of_nat (length pushed) ≠ (R - 1)%Z →
  ∃ chunks',
    buffered C (pushed ++ [merged])
      (pushRow C R (Z.of_nat (length pushed)) merged w) chunks'.
Proof.
  intros HC (Hfs & Hall & Hcat & Hlt & Hlen & Hprog) Hnotlast.
  unfold pushRow, mustWrite, suffixOf.
  rewrite (bool_decide_eq_false_2 (_ = (R - 1)%Z)) by done.
  rewrite orb_false_r.
  destruct (decide (Z.of_nat (length (out w)) + 1 = C)%Z) as [Hfull|Hroom].
  - rewrite bool_decide_eq_true_2
      by (rewrite Hlen; apply rem_block; lia).
    rewrite bool_decide_eq_true_2 by nia.
    cbn [andb]. exists (chunks ++ [out w ++ [merged]]).
    rewrite Hlen, floorDiv_block by lia.
    split; [by apply holds_snoc|]. cbn [out files progress].
    split; [|split; [|split; [|split]]].
    + apply Forall_app. split; [done|]. constructor; [|constructor].
      rewrite length_app. cbn. lia.
    + rewrite concat_app, app_nil_r. cbn. rewrite app_nil_r, app_assoc.
      by rewrite Hcat.
    + cbn. lia.
    + rewrite !length_app. cbn. lia.
    + rewrite length_app. cbn. lia.
  - rewrite bool_decide_eq_false_2
      by (rewrite Hlen; rewrite rem_block by lia; done).
    cbn [andb]. exists chunks. split; [done|]. cbn [out files progress].
    split; [done|]. split; [by rewrite app_assoc, Hcat|].
    rewrite !length_app. cbn. lia.
Qed.

(** The last iteration writes what is buffered, under a fresh suffix. *)
Lemma pushRow_last pushed w chunks merged :
  (1 ≤ C)%Z → buffered C pushed w chunks →
  Z.of_nat (length pushed) = (R - 1)%Z →
  chunkedAs C (pushed ++ [merged])
    (files (pushRow C R (Z.of_nat (length pushed)) merged w)).
Proof.
  intros HC (Hfs & Hall & Hcat & Hlt & Hlen & Hprog) Hlast.
  unfold pushRow, mustWrite, suffixOf.
  rewrite (bool_decide_eq_true_2 (_ = (R - 1)%Z)) by done.
  rewrite orb_true_r. cbn [files].
  destruct (holds_last chunks (files w)
              (ceilDiv (Z.of_nat (length pushed)) C) (out w ++ [merged]) Hfs)
    as [Hsize Hchunks].
  { rewrite Hlen, ceilDiv_block by lia. case_decide; lia. }
  unfold chunkedAs. rewrite Hsize, Hchunks. split; [|split].
  - rewrite length_app. cbn [length].
    replace (Z.of_nat (length pushed + 1)) with
      (C * Z.of_nat (length chunks) + Z.of_nat (length (out w)) + 1)%Z by lia.
    rewrite ceilDiv_succ_block by lia. lia.
  - by rewrite removelast_last.
  - rewrite concat_app. cbn. by rewrite app_nil_r, app_assoc, Hcat.
Qed.

Lemma loopFrom_chunked rest : ∀ pushed w chunks,
  (1 ≤ C)%Z → ((2 ≤ C)%Z ∨ length rest = 1) →
  rest ≠ [] → buffered C pushed w chunks →
  R = Z.of_nat (length (pushed ++ rest)) →
  chunkedAs C (pushed ++ rest)
    (files (loopFrom C R (Z.of_nat (length pushed)) rest w)).
Proof.
  induction rest as [|merged rest IH]; intros pushed w chunks HC Hsize Hne Hbuf HR;
    [done|].
  cbn [loopFrom]. rewrite length_app in HR.
  destruct rest as [|next rest]; cbn [length] in HR.
  - cbn [loopFrom]. eapply pushRow_last; [done|exact Hbuf|lia].
  - destruct Hsize as [HC2|Hone]; [|cbn in Hone; lia].
    destruct (pushRow_middle pushed w chunks merged HC2 Hbuf) as [chunks' Hbuf'].
    { cbn [length] in HR. lia. }
    replace (Z.of_nat (length pushed) + 1)%Z
      with (Z.of_nat (length (pushed ++ [merged])))
      by (rewrite length_app; cbn; lia).
    rewrite (cons_middle merged pushed (next :: rest)), app_assoc.
    eapply IH; [done|by left|done|exact Hbuf'|].
    rewrite !length_app. cbn [length] in *. lia.
Qed.

End Loop.

(** For [R >= 1] rows and a row limit [C >= 2] (or [C = 1] and a single
    row) the writer leaves exactly [ceil(R / C)] chunk files, each but the
    last in suffix order holding exactly [C] rows, and the files read in
    ascending suffix order give the rows in the order in which they were
    pushed. *)
Theorem writeAll_chunked {OutRow : Type} (C : Z) (rows : list OutRow) :
  (1 ≤ C)%Z → (1 ≤ length rows)%nat → (C = 1%Z → length rows = 1) →
  chunked C rows.
Proof.
  intros HC HR Hone. unfold chunked, writeAll.
  apply (loopFrom_chunked C (Z.of_nat (length rows)) rows [] emptyWriter []).
  - done.
  - destruct (decide (C = 1%Z)) as [H1|H1]; [right; by apply Hone|left; lia].
  - intros ->. cbn in HR. lia.
  - by apply buffered_start.
  - done.
Qed.

Lemma writeAll_chunked_witness : chunked 2 ["a"; "b"; "c"; "d"; "e"].
Proof.
  apply (writeAll_chunked 2 ["a"; "b"; "c"; "d"; "e"]).
  - lia.
  - cbn. lia.
  - intros H. discriminate H.
Defined.

(** C3 does not hold of the code at the row limit 1.  With two rows the
    test [(i + 1) % outputFileRows === 0 && i !== 0] is false at index 0,
    although a chunk of one row is complete there, so nothing is written;
    at index 1 both rows go to the file of suffix [ceil(1 / 1) = 1].  The
    writer leaves that one file, holding two rows, where [ceil(2 / 1) = 2]
    files of one row each are due: the row limit is exceeded and the
    writer is not [chunked]. *)
Theorem writeAll_limit_one_two_rows :
  mustWrite 1 2 0 = false
  ∧ files (writeAll 1 ["a"; "b"]) = {[ 1%Z := ["a"; "b"] ]}
  ∧ size (files (writeAll 1 ["a"; "b"])) = 1
  ∧ ceilDiv (Z.of_nat (length ["a"; "b"])) 1 = 2%Z
  ∧ ¬ chunked 1 ["a"; "b"].
Proof.
  split; [reflexivity|]. split; [reflexivity|]. split; [reflexivity|].
  split; [reflexivity|].
  intros [Hsize _]. vm_compute in Hsize. discriminate Hsize.
Qed.

End DriverProofs.

(** ** More on [calculateEmissions] *)

Module AdapterLaws.
Import Adapter Samples AdapterProofs.

(** What the loop does with the reply that ends it. *)
Lemma retryLoop_attempts service request fuel : ∀ retryCount w,
  S fuel + retryCount = MAX_RETRIES →
  ∃ n : nat, (1 ≤ n ≤ S fuel)%nat
    ∧ (∀ j, j < n - 1 → transient (service (calls w + j)))
    ∧ (n < S fuel → ¬ transient (service (calls w + (n - 1))))
    ∧ retryLoop service (S fuel) retryCount request w
      = (match service (calls w + (n - 1)) with
         | Ok res => LoopBreak res
         | Err e => LoopReturn (Err (description e))
         end,
         {| calls := calls w + n; log := log w ++ attempts request n |}).
Proof.
  induction fuel as [|fuel IH]; intros retryCount w Hfuel.
  - exists 1. split; [lia|]. split; [intros j Hj; lia|]. split; [lia|].
    cbn [retryLoop createTransactionEstimate Nat.sub attempts].
    rewrite Nat.add_0_r, Nat.add_1_r.
    destruct (service (calls w)) as [res|e]; [done|].
    destruct (statusCode e); [done|].
    by rewrite bool_decide_eq_false_2 by (unfold MAX_RETRIES in *; lia).
  - destruct (service (calls w)) as [res|e] eqn:Hreply.
    + exists 1. split; [lia|]. split; [intros j Hj; lia|].
      cbn [Nat.sub attempts]. rewrite Nat.add_0_r, Nat.add_1_r, Hreply. split.
      * intros _ (e & He & _). discriminate He.
      * cbn [retryLoop createTransactionEstimate]. by rewrite Hreply.
    + destruct (statusCode e) as [code|] eqn:Hcode.
      * exists 1. split; [lia|]. split; [intros j Hj; lia|].
        cbn [Nat.sub attempts]. rewrite Nat.add_0_r, Nat.add_1_r, Hreply. split.
        -- intros _ (e' & He' & Hnone). injection He' as <-. congruence.
        -- cbn [retryLoop createTransactionEstimate]. by rewrite Hreply, Hcode.
      * rewrite (retryLoop_transient service request _ _ _ e)
          by (done || unfold MAX_RETRIES in *; lia).
        destruct (IH (S retryCount)
                    {| calls := S (calls w);
                       log := log w ++ [EvCall request; EvSleep 500] |})
          as (n & Hn & Htr & Hlast & ->); [lia|]. cbn [calls log] in *.
        exists (S n). split; [lia|]. split; [|split].
        -- intros j Hj. destruct j as [|j].
           ++ rewrite Nat.add_0_r. by exists e.
           ++ replace (calls w + S j) with (S (calls w) + j) by lia.
              apply Htr. lia.
        -- intros Hlt. replace (calls w + (S n - 1)) with (S (calls w) + (n - 1)) by lia.
           apply Hlast. lia.
        -- replace (calls w + (S n - 1)) with (S (calls w) + (n - 1)) by lia.
           f_equal. f_equal; [lia|].
           destruct n as [|n]; [lia|].
           by rewrite attempts_S, <- app_assoc.
Qed.

(** Whatever the service replies, [calculateEmissions] makes between one
    and five calls, always with the same request and with a wait of
    500 ms between consecutive calls; every reply but the last was a
    transient failure, the last one was not unless it was the fifth, and
    the result is read off the last reply alone. *)
Theorem calculateEmissions_attempts service Big_toString searchTerm category
    amount currency countryCode :
  let request := mkRequest searchTerm category amount currency countryCode in
  ∃ n : nat, (1 ≤ n ≤ MAX_RETRIES)%nat
    ∧ (∀ j, j < n - 1 → transient (service j))
    ∧ (n < MAX_RETRIES → ¬ transient (service (n - 1)))
    ∧ calculateEmissions service Big_toString searchTerm category
        amount currency countryCode newWorld
      = (Returned match service (n - 1) with
                  | Ok res => Ok (emissionsOf Big_toString currency res)
                  | Err e => Err (description e)
                  end,
         {| calls := n; log := attempts request n |}).
Proof.
  intros request.
  destruct (retryLoop_attempts service request 4 0 newWorld eq_refl)
    as (n & Hn & Htr & Hlast & Hloop).
  exists n. split; [done|]. split; [done|]. split; [done|].
  unfold calculateEmissions. cbv zeta. fold request.
  change MAX_RETRIES with 5. rewrite Hloop. cbn [calls log newWorld Nat.add app].
  by destruct (service (n - 1)).
Qed.

(** Transient failures followed by a rejection: the rejection ends the
    retries at once, and its description is the error returned. *)
Theorem calculateEmissions_rejected_after_retries service Big_toString searchTerm
    category amount currency countryCode k e :
  k < MAX_RETRIES → (∀ j, j < k → transient (service j)) →
  service k = Err e → is_Some (statusCode e) →
  calculateEmissions service Big_toString searchTerm category
    amount currency countryCode newWorld
  = (Returned (Err (description e)),
     {| calls := S k;
        log := attempts (mkRequest searchTerm category amount currency countryCode)
                 (S k) |}).
Proof.
  intros Hk Htr Hreply [code Hcode].
  destruct (retryLoop_attempts service
              (mkRequest searchTerm category amount currency countryCode)
              4 0 newWorld eq_refl)
    as (n & Hn & Htr' & Hlast & Hloop). cbn [calls log newWorld Nat.add app] in *.
  unfold MAX_RETRIES in Hk.
  assert (n = S k) as ->.
  { destruct (decide (n - 1 < k)) as [Hlt|Hge].
    - exfalso. apply Hlast; [lia|]. by apply Htr.
    - destruct (decide (k < n - 1)) as [Hgt|Hle]; [|lia].
      destruct (Htr' k Hgt) as (e' & He' & Hnone). congruence. }
  unfold calculateEmissions. cbv zeta. change MAX_RETRIES with 5.
  rewrite Hloop. replace (S k - 1) with k by lia. by rewrite Hreply.
Qed.

Lemma calculateEmissions_rejected_after_retries_witness :
  calculateEmissions rejectingLater (λ _, "") "Coffee" None "10" "USD" "USA" newWorld
  = (Returned (Err "unauthorized"),
     {| calls := 4; log := attempts (mkRequest "Coffee" None "10" "USD" "USA") 4 |}).
Proof.
  apply (calculateEmissions_rejected_after_retries rejectingLater (λ _, "")
           "Coffee" None "10" "USD" "USA" 3
           {| statusCode := Some 401%Z; description := "unauthorized" |}).
  - unfold MAX_RETRIES. lia.
  - intros [|[|[|j]]] Hj; [by eexists..|lia].
  - reflexivity.
  - by eexists.
Defined.

(** The dashboard link determines the estimate: two estimates never share
    a link. *)
Theorem dashboardUrl_inj estimateId1 estimateId2 :
  dashboardUrl estimateId1 = dashboardUrl estimateId2 → estimateId1 = estimateId2.
Proof.
  unfold dashboardUrl. intros H. apply (inj (String.append _)) in H.
  by apply MergerProofs.string_app_inj_r in H.
Qed.

Lemma dashboardUrl_inj_witness : "abc" = "abc".
Proof. apply (dashboardUrl_inj "abc" "abc"). reflexivity. Defined.

End AdapterLaws.

(** ** More on the Permutation Generator *)

Module GeneratorLaws.
Import Generator Samples GeneratorProofs.

(** [searchCategoryPermutations] on its own returns the pairs of a search
    term and a category, [S * C] of them: none at all when there is no
    category, which is why [main] passes [[undefined]] then. *)
Theorem searchCategoryPermutations_members (searchTerms : list string)
    (categories : list (option string)) :
  length (searchCategoryPermutations searchTerms categories)
  = length searchTerms * length categories
  ∧ (∀ c, c ∈ searchCategoryPermutations searchTerms categories
          ↔ searchTerm c ∈ searchTerms ∧ category c ∈ categories)
  ∧ searchCategoryPermutations searchTerms [] = [].
Proof.
  rewrite !searchCategoryPermutations_bind. split; [|split].
  - rewrite (length_bind_block _ (length categories)); [done|].
    intros s. by rewrite length_fmap.
  - intros [s cat]. rewrite list_elem_of_bind. cbn. split.
    + intros (s' & Hin & Hs'). apply list_elem_of_fmap in Hin as (cat' & [= -> ->] & Hcat).
      done.
    + intros [Hs Hcat]. exists s. split; [|done].
      apply list_elem_of_fmap. by exists cat.
  - induction searchTerms as [|s searchTerms IH]; [done|]. by cbn.
Qed.

End GeneratorLaws.

(** ** The validators of [utils.ts] *)

Module LoaderLaws.
Import Loader Samples.

Lemma typeof_string v : typeof v = "string" ↔ ∃ s, v = JsString s.
Proof.
  split; [|by intros [s ->]].
  destruct v; try discriminate. by eexists.
Qed.

Lemma checkProperties_Ok value properties v :
  checkProperties value properties = Ok v
  ↔ v = value ∧ Forall (λ p, typeof (getProperty value p) = "string") properties.
Proof.
  induction properties as [|p rest IH]; cbn [checkProperties].
  - split; [intros [= <-]; by split|by intros [-> _]].
  - case_decide as Hp.
    + rewrite IH, Forall_cons. tauto.
    + split; [discriminate|]. intros [_ Hall]. by apply Forall_cons in Hall as [? _].
Qed.

Lemma checkProperties_first_failure value checked p rest :
  Forall (λ p, typeof (getProperty value p) = "string") checked →
  typeof (getProperty value p) ≠ "string" →
  checkProperties value (checked ++ p :: rest)
  = Err ("Property " +:+ p +:+ " is not a string: " +:+ typeof (getProperty value p)).
Proof.
  intros Hchecked Hp. induction Hchecked as [|q checked Hq _ IH]; cbn [checkProperties app].
  - by rewrite decide_False.
  - by rewrite decide_True.
Qed.

Lemma errors_nil {T} (validator : JsValue → Result T string)
    (f : nat → JsValue → Result T string) items :
  (∀ i item, isErr (f i item) = isErr (validator item)) →
  filter (λ result, isErr result) (imap f items) = []
  ↔ Forall (λ item, isErr (validator item) = false) items.
Proof.
  revert f. induction items as [|item items IH]; intros f Hf; cbn [imap].
  - split; [constructor|done].
  - rewrite filter_cons, Forall_cons, <- (IH (f ∘ S)) by (intros i x; apply Hf).
    rewrite <- (Hf 0 item). destruct (isErr (f 0 item)); cbn.
    + split; [discriminate|]. by intros [? _].
    + tauto.
Qed.

Section WithToString.
Variable toString : JsValue → string.

Lemma passStringRecord_accepts value properties v :
  passStringRecord toString value properties = Ok v
  ↔ v = value ∧ typeof value = "object" ∧ isNull value = false
    ∧ Forall (λ p, ∃ s, getProperty value p = JsString s) properties.
Proof.
  unfold passStringRecord.
  assert (Hstr : Forall (λ p, ∃ s, getProperty value p = JsString s) properties
                 ↔ Forall (λ p, typeof (getProperty value p) = "string") properties).
  { apply Forall_proper; [|done]. intros p. by rewrite typeof_string. }
  rewrite Hstr. destruct (decide (typeof value = "object")) as [Hobj|Hobj].
  - rewrite bool_decide_eq_false_2 by (by intros ?). cbn [orb].
    destruct (isNull value).
    + split; [discriminate|]. by intros (_ & _ & ? & _).
    + rewrite checkProperties_Ok. tauto.
  - rewrite bool_decide_eq_true_2 by done. cbn [orb].
    split; [discriminate|]. by intros (_ & ? & _).
Qed.

(** On a plain object the loop of [passStringRecord] stops at the first
    listed property that is not a string and reports that one only, with
    the type of its value: the type of the property that the object owns,
    or ["undefined"] for a name that the object does not own and that
    [Object.prototype] does not supply either. *)
Theorem passStringRecord_first_failure props checked p rest :
  let value := JsObject props in
  (lookupProperty p props = None → p ∉ objectPrototypeNames) →
  Forall (λ p, ∃ s, getProperty value p = JsString s) checked →
  (∀ s, getProperty value p ≠ JsString s) →
  passStringRecord toString value (checked ++ p :: rest)
  = Err ("Property " +:+ p +:+ " is not a string: " +:+ typeof (getProperty value p))
  ∧ (lookupProperty p props = None →
     passStringRecord toString value (checked ++ p :: rest)
     = Err ("Property " +:+ p +:+ " is not a string: undefined")).
Proof.
  intros value _ Hchecked Hp.
  assert (Hfirst : passStringRecord toString value (checked ++ p :: rest)
    = Err ("Property " +:+ p +:+ " is not a string: "
           +:+ typeof (getProperty value p))); [|split; [done|]].
  2: { intros Hnone. rewrite Hfirst. unfold value. cbn [getProperty].
       by rewrite Hnone. }
  unfold passStringRecord, value. cbn [typeof isNull].
  rewrite bool_decide_eq_false_2 by (by intros ?). cbn [orb].
  apply checkProperties_first_failure.
  - eapply Forall_impl; [exact Hchecked|]. intros q Hq. by apply typeof_string.
  - intros Hs. apply typeof_string in Hs as [s Hs]. by apply (Hp s).
Qed.

Lemma passArray_nonempty {T} value (validator : JsValue → Result T string) items :
  passArray toString value validator = Ok items → items ≠ [].
Proof.
  unfold passArray. destruct value as [| | | | |items'|]; try done.
  case_decide as Hlen; [done|]. case_decide; [done|].
  intros [= <-] ->. by apply Hlen.
Qed.

Lemma passArray_accepts {T} value (validator : JsValue → Result T string) items :
  passArray toString value validator = Ok items
  ↔ value = JsArray items ∧ items ≠ []
    ∧ Forall (λ item, isErr (validator item) = false) items.
Proof.
  unfold passArray. destruct value as [| | | | |items'|];
    try (split; [discriminate|by intros [? _]]).
  destruct (decide (length items' = 0)) as [Hempty|Hne].
  - split; [discriminate|]. intros ([= <-] & Hne & _).
    by apply length_zero_iff_nil in Hempty.
  - set (errors := filter _ _).
    assert (Herrors : errors = [] ↔ Forall (λ item, isErr (validator item) = false) items').
    { apply errors_nil. intros i item. by destruct (validator item). }
    destruct (decide (0 < length errors)) as [Hsome|Hnone].
    + split; [discriminate|]. intros ([= <-] & _ & Hall).
      apply Herrors in Hall. rewrite Hall in Hsome. cbn in Hsome. lia.
    + assert (errors = []) as Hnil by (apply length_zero_iff_nil; lia).
      split.
      * intros [= <-]. split; [done|]. split; [|by apply Herrors].
        intros ->. by apply Hne.
      * by intros ([= <-] & _ & _).
Qed.

(** [passStringRecord] accepts exactly the non-null objects whose listed
    properties are all strings, and hands the value back untouched;
    properties that are not listed play no part. *)
Theorem passStringRecord_Ok value properties v :
  passStringRecord toString value properties = Ok v
  ↔ v = value ∧ typeof value = "object" ∧ isNull value = false
    ∧ Forall (λ p, ∃ s, getProperty value p = JsString s) properties.
Proof. apply passStringRecord_accepts. Qed.

(** [passArray] accepts exactly the non-empty arrays all of whose items
    the validator accepts, and hands the array back as it came: what the
    validator returned for the items is not used. *)
Theorem passArray_Ok {T} value (validator : JsValue → Result T string) items :
  passArray toString value validator = Ok items
  ↔ value = JsArray items ∧ items ≠ []
    ∧ Forall (λ item, isErr (validator item) = false) items.
Proof. apply passArray_accepts. Qed.

End WithToString.

Lemma asRow_lookup props p s :
  lookupProperty p props = Some (JsString s) →
  asRow (JsObject props) !! p = Some s.
Proof.
  unfold asRow. induction props as [|[k v] props IH]; [done|].
  cbn [lookupProperty omap list_omap]. case_decide as Hk.
  - intros [= ->]. subst k. cbn. by rewrite lookup_insert_eq.
  - intros Hp. cbn [snd fst]. destruct v; cbn; try by apply IH.
    rewrite lookup_insert_ne by done. by apply IH.
Qed.

Lemma isErr_false {T E} (r : Result T E) : isErr r = false ↔ ∃ v, r = Ok v.
Proof. destruct r; split; try done; [by eexists|by intros [? ?]]. Qed.

Lemma lookupProperty_filter (fields : list string) p props :
  p ∈ fields →
  lookupProperty p (filter (λ kv, kv.1 ∈ fields) props) = lookupProperty p props.
Proof.
  intros Hp. induction props as [|[k v] props IH]; [done|].
  rewrite filter_cons. cbn [fst lookupProperty].
  destruct (decide (k = p)) as [->|Hk].
  - rewrite decide_True by done. cbn [lookupProperty]. by rewrite decide_True.
  - case_decide; [cbn [lookupProperty]; by rewrite decide_False|done].
Qed.

Lemma sameVerdict_checkProperties fields props : ∀ properties,
  properties ⊆ fields →
  sameVerdict
    (checkProperties (JsObject (filter (λ kv, kv.1 ∈ fields) props)) properties)
    (checkProperties (JsObject props) properties).
Proof.
  induction properties as [|p rest IH]; intros Hsub; [done|].
  cbn [checkProperties getProperty].
  rewrite lookupProperty_filter by (apply Hsub; by left).
  case_decide; [|done]. apply IH. intros q Hq. apply Hsub. by right.
Qed.

Lemma sameVerdict_errors {T U} (f : nat → JsValue → Result T string)
    (g : nat → JsValue → Result U string) items :
  (∀ i item, item ∈ items → sameVerdict (f i item) (g i item)) →
  showErr <$> filter (λ result, isErr result) (imap f items)
  = showErr <$> filter (λ result, isErr result) (imap g items).
Proof.
  revert f g. induction items as [|item items IH]; intros f g Hsame; [done|].
  cbn [imap]. rewrite !filter_cons.
  pose proof (Hsame 0 item (list_elem_of_here _ _)) as H0.
  pose proof (IH (f ∘ S) (g ∘ S)) as Htail.
  destruct (f 0 item), (g 0 item); cbn in H0; try done;
    cbn; repeat case_decide; try done; cbn.
  - apply Htail. intros i x Hx. apply Hsame. by right.
  - subst. f_equal. apply Htail. intros i x Hx. apply Hsame. by right.
Qed.

Lemma passArray_sameVerdict {T U} toString value
    (v1 : JsValue → Result T string) (v2 : JsValue → Result U string) :
  (∀ items, value = JsArray items →
     ∀ item, item ∈ items → sameVerdict (v1 item) (v2 item)) →
  passArray toString value v1 = passArray toString value v2.
Proof.
  intros Hsame. unfold passArray. destruct value as [| | | | |items|]; try done.
  case_decide; [done|].
  set (f := λ index item, mapErr (v1 item) (λ e, pretty index +:+ ": " +:+ e)).
  set (g := λ index item, mapErr (v2 item) (λ e, pretty index +:+ ": " +:+ e)).
  assert (Hshow : showErr <$> filter (λ result, isErr result) (imap f items)
                  = showErr <$> filter (λ result, isErr result) (imap g items)).
  { apply sameVerdict_errors. intros i item Hitem.
    specialize (Hsame items eq_refl item Hitem). unfold f, g.
    destruct (v1 item), (v2 item); cbn in *; try done. by subst. }
  pose proof (f_equal length Hshow) as Hlen. rewrite !length_fmap in Hlen.
  rewrite Hlen, Hshow. by case_decide.
Qed.

Section WithHost.
Variable toString : JsValue → string.
Variable readFile : string → Result string string.
Variable parseCsv : string → Result JsValue string.

Lemma loadCsv_nonempty path fields source :
  loadCsv toString readFile parseCsv path fields = Ok source → source ≠ [].
Proof.
  unfold loadCsv, readFileChecked, parseCsvChecked.
  destruct (readFile path) as [buffer|e]; [|done]. cbn [andThen].
  destruct (parseCsv buffer) as [parsed|e]; [|done]. cbn [andThen].
  intros Hpass. by apply passArray_nonempty in Hpass.
Qed.

Lemma loadCsv_accepts path fields source :
  loadCsv toString readFile parseCsv path fields = Ok source
  ↔ ∃ buffer, readFile path = Ok buffer
      ∧ parseCsv buffer = Ok (JsArray source)
      ∧ source ≠ []
      ∧ Forall (λ record,
                  typeof record = "object" ∧ isNull record = false
                  ∧ Forall (λ p, ∃ s, getProperty record p = JsString s) fields)
               source.
Proof.
  assert (Hitems : ∀ items,
    Forall (λ item, isErr (passStringRecord toString item fields) = false) items
    ↔ Forall (λ record,
                typeof record = "object" ∧ isNull record = false
                ∧ Forall (λ p, ∃ s, getProperty record p = JsString s) fields) items).
  { intros items. apply Forall_proper; [|done]. intros record.
    rewrite isErr_false. split.
    - intros [v Hv]. apply passStringRecord_accepts in Hv. tauto.
    - intros H. exists record. apply passStringRecord_accepts. tauto. }
  unfold loadCsv, readFileChecked, parseCsvChecked.
  destruct (readFile path) as [buffer|e] eqn:Hread; cbn [andThen].
  - destruct (parseCsv buffer) as [parsed|e] eqn:Hparse; cbn [andThen].
    + rewrite passArray_accepts, Hitems. split.
      * intros (-> & Hne & Hall). exists buffer. by repeat split.
      * intros (buffer' & [= <-] & Hparse' & Hne & Hall).
        rewrite Hparse in Hparse'. by injection Hparse' as ->.
    + split; [discriminate|]. intros (buffer' & [= <-] & Hparse' & _). congruence.
  - split; [discriminate|]. by intros (buffer' & ? & _).
Qed.

(** [loadCsv] succeeds exactly when the file can be read, parses to a
    non-empty array of non-null objects, and every requested field of
    every record is a string; it then returns the parsed records
    themselves.  Columns that were not requested are no obstacle. *)
Theorem loadCsv_Ok path fields source :
  loadCsv toString readFile parseCsv path fields = Ok source
  ↔ ∃ buffer, readFile path = Ok buffer
      ∧ parseCsv buffer = Ok (JsArray source)
      ∧ source ≠ []
      ∧ Forall (λ record,
                  typeof record = "object" ∧ isNull record = false
                  ∧ Forall (λ p, ∃ s, getProperty record p = JsString s) fields)
               source.
Proof. apply loadCsv_accepts. Qed.

(** The first failure decides the message of [loadCsv]: an unreadable
    file is reported before anything is parsed, a parse error before
    anything is validated, and a parse result that is not an array before
    any record is looked at. *)
Theorem loadCsv_errors path fields :
  (∀ e, readFile path = Err e →
     loadCsv toString readFile parseCsv path fields
     = Err ("Failed to load " +:+ path +:+ ": " +:+ e))
  ∧ (∀ buffer e, readFile path = Ok buffer → parseCsv buffer = Err e →
       loadCsv toString readFile parseCsv path fields
       = Err ("Failed to parse CSV content: " +:+ e))
  ∧ (∀ buffer parsed, readFile path = Ok buffer → parseCsv buffer = Ok parsed →
       isArray parsed = false →
       loadCsv toString readFile parseCsv path fields
       = Err (toString parsed +:+ " is not an array")).
Proof.
  unfold loadCsv, readFileChecked, parseCsvChecked. split; [|split].
  - by intros e ->.
  - intros buffer e -> Hparse. cbn [andThen]. by rewrite Hparse.
  - intros buffer parsed -> Hparse Hparsed. cbn [andThen]. rewrite Hparse.
    cbn [andThen]. by destruct parsed.
Qed.

(** After [loadCsv] every requested column of every record is present as
    a string in the dictionary that [main] indexes, so [row[column]] is
    never [undefined]. *)
Theorem loadCsv_columns_present path fields source props column :
  loadCsv toString readFile parseCsv path fields = Ok source →
  JsObject props ∈ source → column ∈ fields →
  ∃ s, asRow (JsObject props) !! column = Some s
       ∧ Generator.field (asRow (JsObject props)) column = s
       ∧ lookupProperty column props = Some (JsString s).
Proof.
  intros Hload Hrecord Hcolumn.
  apply loadCsv_accepts in Hload as (buffer & _ & _ & _ & Hall).
  rewrite Forall_forall in Hall. destruct (Hall _ Hrecord) as (_ & _ & Hfields).
  rewrite Forall_forall in Hfields. destruct (Hfields _ Hcolumn) as [s Hs].
  cbn [getProperty] in Hs.
  destruct (lookupProperty column props) as [v|] eqn:Hlookup; [|discriminate].
  cbn in Hs. subst v. exists s.
  pose proof (asRow_lookup props column s Hlookup) as Hrow.
  split; [done|]. split; [|done]. unfold Generator.field. by rewrite Hrow.
Qed.

(** On records that are not arrays [loadCsvSelectedFields] returns what
    [loadCsv] returns: the selection only decides what is validated, and
    the records come back with all their columns. *)
Theorem loadCsvSelectedFields_loadCsv path fields :
  (∀ buffer items, parseCsv buffer = Ok (JsArray items) →
     Forall (λ item, isArray item = false) items) →
  loadCsvSelectedFields toString readFile parseCsv path fields
  = loadCsv toString readFile parseCsv path fields.
Proof.
  intros Hrecords. unfold loadCsvSelectedFields, loadCsv, readFileChecked.
  destruct (readFile path) as [buffer|e]; [|done]. cbn [andThen].
  unfold parseCsvChecked. destruct (parseCsv buffer) as [parsed|e] eqn:Hparse;
    [|done]. cbn [andThen].
  apply passArray_sameVerdict. intros items -> item Hitem.
  specialize (Hrecords buffer items Hparse). rewrite Forall_forall in Hrecords.
  specialize (Hrecords item Hitem).
  unfold passStringRecord, onlySelectedFields.
  destruct (bool_decide (typeof item ≠ "object") || isNull item) eqn:Hobj; [by rewrite Hobj|].
  destruct item; try done. cbn [typeof isNull entries].
  rewrite bool_decide_eq_false_2 by (by intros ?). cbn [orb].
  by apply sameVerdict_checkProperties.
Qed.

End WithHost.

Lemma passStringRecord_first_failure_witness :
  passStringRecord (λ _, "") oneRecord (["Currency"] ++ "Amount" :: ["Country"])
  = Err "Property Amount is not a string: undefined".
Proof.
  unfold oneRecord.
  refine (proj2 (passStringRecord_first_failure (λ _, "") _ ["Currency"] "Amount"
                   ["Country"] _ _ _) _).
  - intros _. unfold objectPrototypeNames. set_solver.
  - constructor; [by eexists|constructor].
  - intros s. discriminate.
  - reflexivity.
Defined.

Lemma loadCsv_columns_present_witness :
  Generator.field (asRow oneRecord) "Sum of Spend" = "10.00".
Proof.
  destruct (loadCsv_columns_present (λ _, "") readHeaderOnly parseOneRecord
              "template.csv" (Driver.columns sampleOptions) [oneRecord]
              [ ("Category Level 3", JsString "Coffee");
                ("Category Level 2", JsString "Restaurants");
                ("Sum of Spend", JsString "10.00");
                ("Currency", JsString "USD");
                ("Country", JsString "USA");
                ("Notes", JsString "weekly") ]
              "Sum of Spend")
    as (s & _ & Hfield & Hlookup).
  - reflexivity.
  - apply list_elem_of_here.
  - unfold Driver.columns. cbn. set_solver.
  - injection Hlookup as <-. exact Hfield.
Defined.

Lemma loadCsvSelectedFields_loadCsv_witness :
  loadCsvSelectedFields (λ _, "") readHeaderOnly parseOneRecord "template.csv"
    ["Currency"; "Country"]
  = loadCsv (λ _, "") readHeaderOnly parseOneRecord "template.csv"
      ["Currency"; "Country"].
Proof.
  apply (loadCsvSelectedFields_loadCsv (λ _, "") readHeaderOnly parseOneRecord).
  intros buffer items [= <-]. by repeat constructor.
Defined.

Lemma loadCsv_errors_witness :
  loadCsv (λ _, "") readMissing parseOneRecord "template.csv" ["Currency"]
  = Err "Failed to load template.csv: ENOENT: no such file or directory".
Proof.
  apply (proj1 (loadCsv_errors (λ _, "") readMissing parseOneRecord
                  "template.csv" ["Currency"])).
  reflexivity.
Defined.

End LoaderLaws.

(** ** More on the ranking and the merged row *)

Module MergerLaws.
Import Generator Merger Samples MergerProofs.

Lemma sort_keeps_ties (P : PermutationResult → Prop) `{∀ r, Decision (P r)} l :
  (∀ x y, P x → P y → (scoreOf x == scoreOf y)%Q) →
  filter P (sort compareFn l) = filter P l.
Proof.
  intros Hties. induction l as [|x l IH]; [done|].
  cbn [sort foldr]. fold (sort compareFn l).
  rewrite sortInsert_stable.
  - by rewrite !filter_cons, IH.
  - intros y _ Hx Hy. apply compareFn_le. unfold byScore.
    rewrite (Hties x y Hx Hy). apply Qle_refl.
Qed.

Lemma filter_nothing {A} (P : A → Prop) `{∀ x, Decision (P x)} (l : list A) :
  (∀ x, ¬ P x) → filter P l = [].
Proof.
  intros HP. induction l as [|x l IH]; [done|].
  by rewrite filter_cons, decide_False.
Qed.

(** Results with the same score are ranked in the order in which the
    ranker received them. *)
Theorem ranked_ties_keep_order (permutationsResults : list PermutationResult) q :
  filter (λ r, isNullish (score r) = false ∧ (scoreOf r == q)%Q)
         (sortedPermutationResults permutationsResults)
  = filter (λ r, isNullish (score r) = false ∧ (scoreOf r == q)%Q)
           permutationsResults.
Proof.
  unfold sortedPermutationResults, withConfidenceResults, noConfidenceResults.
  rewrite filter_app, sort_keeps_ties.
  - rewrite list_filter_filter_l
      by (intros r [Hr _]; by rewrite Hr).
    rewrite list_filter_filter.
    rewrite (filter_nothing (λ a, (_ ∧ _) ∧ _)), app_nil_r; [done|].
    intros r [[Hr _] Hnull]. by rewrite Hr in Hnull.
  - intros x y [_ Hx] [_ Hy]. by rewrite Hx, Hy.
Qed.

Section Keys.
Variable Number_toString : Q → string.

Lemma is_Some_insert_columns r idx key (cols : list Column) :
  ∀ acc : gmap string string,
  is_Some (foldl (λ obj c, <[columnKey c idx := cell Number_toString c r]> obj)
                 acc cols !! key)
  ↔ is_Some (acc !! key) ∨ ∃ c, c ∈ cols ∧ key = columnKey c idx.
Proof.
  induction cols as [|c0 cols IH]; intros acc; cbn [foldl].
  - split; [by left|]. intros [?|(c & Hc & _)]; [done|]. by apply elem_of_nil in Hc.
  - rewrite IH, lookup_insert_is_Some'. split.
    + intros [[<-|?]|(c & Hc & ->)]; [right|by left|right].
      * exists c0. split; [left|done].
      * exists c. split; [by right|done].
    + intros [?|(c & Hc & ->)]; [by left; right|].
      apply elem_of_cons in Hc as [->|Hc]; [by left; left|].
      right. by exists c.
Qed.

Lemma is_Some_reduceFrom l : ∀ k (acc : gmap string string) key,
  is_Some (reduceFrom (mergeEntry Number_toString) k l acc !! key)
  ↔ is_Some (acc !! key)
    ∨ ∃ c idx, (k < idx ≤ k + length l)%nat ∧ key = columnKey c idx.
Proof.
  induction l as [|x l IH]; intros k acc key; cbn [reduceFrom length].
  - split; [by left|]. intros [?|(c & idx & Hidx & _)]; [done|lia].
  - rewrite IH. unfold mergeEntry. cbv zeta. rewrite is_Some_insert_columns.
    split.
    + intros [[?|(c & _ & ->)]|(c & idx & Hidx & ->)]; [by left|right..].
      * exists c, (k + 1). split; [lia|done].
      * exists c, idx. split; [lia|done].
    + intros [?|(c & idx & Hidx & ->)]; [by left; left|].
      destruct (decide (idx = k + 1)) as [->|Hne].
      * left. right. exists c. split; [apply elem_of_allColumns|done].
      * right. exists c, idx. split; [lia|done].
Qed.

Lemma resultObj_is_Some (sorted : list PermutationResult) key :
  is_Some (resultObj Number_toString sorted !! key)
  ↔ ∃ c idx, (1 ≤ idx ≤ length sorted)%nat ∧ key = columnKey c idx.
Proof.
  unfold resultObj, reduce. rewrite is_Some_reduceFrom, lookup_empty.
  split.
  - intros [[? ?]|(c & idx & Hidx & ->)]; [done|]. exists c, idx. split; [lia|done].
  - intros (c & idx & Hidx & ->). right. exists c, idx. split; [lia|done].
Qed.

(** The merged object has the eleven columns of every rank from 1 to the
    number of results and no other key, [11 * N] keys in all. *)
Theorem resultObj_keys (sorted : list PermutationResult) :
  (∀ key, is_Some (resultObj Number_toString sorted !! key)
          ↔ ∃ c idx, (1 ≤ idx ≤ length sorted)%nat ∧ key = columnKey c idx)
  ∧ size (resultObj Number_toString sorted) = 11 * length sorted.
Proof.
  pose proof (resultObj_is_Some sorted) as Hkeys.
  split; [done|].
  set (keys := seq 1 (length sorted) ≫= λ idx, (λ c, columnKey c idx) <$> allColumns).
  assert (Hdom : dom (resultObj Number_toString sorted) = list_to_set keys).
  { apply set_eq. intros key. rewrite elem_of_dom, Hkeys, elem_of_list_to_set.
    unfold keys. rewrite list_elem_of_bind. split.
    - intros (c & idx & Hidx & ->). exists idx. split.
      + apply list_elem_of_fmap. exists c. split; [done|apply elem_of_allColumns].
      + apply elem_of_seq. lia.
    - intros (idx & Hkey & Hidx). apply list_elem_of_fmap in Hkey as (c & -> & _).
      apply elem_of_seq in Hidx. exists c, idx. split; [lia|done]. }
  rewrite <- size_dom, Hdom, size_list_to_set.
  - unfold keys. rewrite (GeneratorProofs.length_bind_block _ 11), length_seq; [lia|].
    intros idx. by rewrite length_fmap.
  - unfold keys. apply NoDup_bind; [| |apply NoDup_seq].
    + intros idx1 idx2 key _ _ H1 H2.
      apply list_elem_of_fmap in H1 as (c1 & -> & _).
      apply list_elem_of_fmap in H2 as (c2 & Heq & _).
      by apply columnKey_inj in Heq as [_ ?].
    + intros idx _. apply NoDup_fmap_2_strong.
      * intros c1 c2 _ _ Heq. by apply columnKey_inj in Heq as [? _].
      * unfold allColumns. repeat (apply NoDup_cons; split; [set_solver|]).
        apply NoDup_nil_2.
Qed.

(** In the output row the columns of the ranks override input columns of
    the same name; every other input column is carried over with its
    value. *)
Theorem outputRow_columns (row : gmap string string)
    (sorted : list PermutationResult) :
  (∀ c i r, sorted !! i = Some r →
     outputRow Number_toString row sorted !! columnKey c (S i)
     = Some (cell Number_toString c r))
  ∧ (∀ key, (∀ c idx, (1 ≤ idx ≤ length sorted)%nat → key ≠ columnKey c idx) →
       outputRow Number_toString row sorted !! key = row !! key)
  ∧ (∀ key, is_Some (row !! key) →
       is_Some (outputRow Number_toString row sorted !! key)).
Proof.
  unfold outputRow. split; [|split].
  - intros c i r Hi. rewrite lookup_union_l'; rewrite lookup_resultObj, Hi; by eauto.
  - intros key Hkey. apply lookup_union_r.
    destruct (resultObj Number_toString sorted !! key) as [v|] eqn:Hv; [|done].
    destruct (proj1 (resultObj_is_Some sorted key))
      as (c & idx & Hidx & ->); [by eexists|].
    by destruct (Hkey c idx Hidx).
  - intros key [v Hv]. rewrite lookup_union.
    destruct (resultObj Number_toString sorted !! key); rewrite Hv; by eexists.
Qed.

End Keys.

(** *** A reply without a mass *)

Section NoMatch.
Variable services : nat → nat → Adapter.Reply.
Variable Big_toString : Q → string.
Variable Number_toString : Q → string.
Variable searchPermutations : list Candidate.
Variables amount currency countryCode : string.

(** A candidate that the service answers without a mass, after any number
    of retried transient failures, contributes an entry that is unscored
    like a failure but names the search term and category it was asked
    with; its intensity unit reads ["CO2e/<currency>"] and every other
    column but the original unit (["CO2e/"]) is empty. *)
Theorem no_match_entry_names_candidate i c k results :
  searchPermutations !! i = Some c → k < Adapter.MAX_RETRIES →
  (∀ j, j < k → Adapter.transient (services i j)) →
  services i k = Ok Adapter.WithoutMass →
  ∃ entry,
    runTask services Big_toString searchPermutations amount currency countryCode
      i results = results ++ [entry]
    ∧ isNullish (score entry) = true
    ∧ searchTermUsed entry = searchTerm c
    ∧ categoryUsed entry = default "" (category c)
    ∧ ∀ col, cell Number_toString col entry
             = match col with
               | SearchTermUsed => searchTerm c
               | CategoryUsed => default "" (category c)
               | EmissionFactorIntensityUnit => "CO2e/" +:+ currency
               | EmissionFactorOriginalUnit => "CO2e/"
               | _ => ""
               end.
Proof.
  intros Hc Hk Htr Hreply.
  exists (successEntry c (Adapter.emissionsOf Big_toString currency Adapter.WithoutMass)).
  split; [|split; [done|split; [done|split; [done|]]]].
  - unfold runTask, Adapter.calculateEmissions. rewrite Hc. cbv zeta.
    by rewrite (AdapterProofs.retryLoop_success (services i) _ k Adapter.MAX_RETRIES 0
                  Adapter.newWorld Adapter.WithoutMass).
  - intros col. destruct col; try done. cbn. by case_decide.
Qed.

End NoMatch.

Lemma no_match_entry_names_candidate_witness :
  ∃ entry,
    runTask sampleServices (λ _, "") sampleCandidates "10" "USD" "USA" 1 []
    = [entry]
    ∧ searchTermUsed entry = "Restaurants".
Proof.
  destruct (no_match_entry_names_candidate sampleServices (λ _, "") (λ _, "")
              sampleCandidates "10" "USD" "USA" 1
              {| searchTerm := "Restaurants"; category := Some "Food" |} 2 [])
    as (entry & Hrun & _ & Hterm & _).
  - reflexivity.
  - unfold Adapter.MAX_RETRIES. lia.
  - intros [|[|j]] Hj; [by eexists..|lia].
  - reflexivity.
  - exists entry. by split.
Defined.

Lemma outputRow_columns_witness :
  outputRow (λ _, "0.9") sampleRow sampleResults !! "Emission factor name (1)"
  = Some "Error: unprocessable"
  ∧ outputRow (λ _, "0.9") sampleRow sampleResults !! "Currency" = Some "USD".
Proof.
  destruct (outputRow_columns (λ _, "0.9") sampleRow sampleResults)
    as (Hrank & Hinput & _).
  split.
  - apply (Hrank EmissionFactorName 0 (failureEntry "unprocessable")). reflexivity.
  - rewrite Hinput; [reflexivity|].
    intros c idx _. destruct c; cbn; discriminate.
Defined.

(** *** The order in which the tasks finish *)

Section Completion.
Variable services : nat → nat → Adapter.Reply.
Variable Big_toString : Q → string.
Variable searchPermutations : list Candidate.
Variables amount currency countryCode : string.

(** The tasks of a row may finish in any order, and the ranker receives
    their outcomes in that order, not in the order of the candidates; the
    join resumes exactly when each task has finished once. *)
Theorem tasks_finish_in_any_order (schedule : list nat) :
  NoDup schedule → (∀ i, i ∈ schedule → i < length searchPermutations) →
  let st := runSchedule services Big_toString searchPermutations
              amount currency countryCode schedule in
  rtc (step services Big_toString searchPermutations amount currency countryCode)
      (started searchPermutations) st
  ∧ permutationsResults st
    = schedule ≫= outcome services Big_toString searchPermutations
                    amount currency countryCode
  ∧ (joined st ↔ schedule ≡ₚ seq 0 (length searchPermutations)).
Proof.
  intros Hnd Hlt st. split; [by apply runSchedule_reachable|].
  split; [apply results_runSchedule|]. split.
  - by apply joined_schedule.
  - intros Hperm. unfold joined, st. rewrite pending_runSchedule, Hperm.
    set_solver.
Qed.

End Completion.

Lemma tasks_finish_in_any_order_witness :
  permutationsResults
    (runSchedule sampleServices (λ _, "") sampleCandidates "10" "USD" "USA" [1; 0])
  = [1; 0] ≫= outcome sampleServices (λ _, "") sampleCandidates "10" "USD" "USA".
Proof.
  apply (tasks_finish_in_any_order sampleServices (λ _, "") sampleCandidates
           "10" "USD" "USA" [1; 0]).
  - apply NoDup_cons. split; [|apply NoDup_singleton].
    intros H. apply list_elem_of_singleton in H. discriminate H.
  - intros i Hi. apply elem_of_cons in Hi as [->|Hi]; [cbn; lia|].
    apply list_elem_of_singleton in Hi as ->. cbn; lia.
Defined.

End MergerLaws.

(** ** More on the writer and the driver *)

Module DriverLaws.
Import Loader Driver Samples DriverProofs.

Lemma ceilDiv_upper C n : (1 ≤ C)%Z → (n ≤ ceilDiv n C * C)%Z.
Proof.
  intros HC. unfold ceilDiv.
  pose proof (Z.div_mod (- n) C ltac:(lia)) as Hdiv.
  pose proof (Z.mod_pos_bound (- n) C ltac:(lia)) as Hmod. nia.
Qed.

Lemma floorDiv_boundary C n :
  (1 ≤ C)%Z → (0 ≤ n)%Z → Z.rem (n + 1) C = 0%Z →
  ((floorDiv n C + 1) * C = n + 1)%Z.
Proof.
  intros HC Hn Hrem. rewrite Z.rem_mod_nonneg in Hrem by lia.
  pose proof (Z.div_mod (n + 1) C ltac:(lia)) as Hdiv. rewrite Hrem in Hdiv.
  replace n with (C * ((n + 1) `div` C - 1) + (C - 1))%Z at 1 by lia.
  rewrite floorDiv_block by lia. lia.
Qed.

Section Writes.
Context {OutRow : Type}.
Implicit Types (writes : list (Z * list OutRow)) (w : Writer (OutRow := OutRow)).

Lemma sorted_lt_snoc (suffixes : list Z) s :
  Sorted Z.lt suffixes → Forall (λ k, (k < s)%Z) suffixes →
  Sorted Z.lt (suffixes ++ [s]).
Proof.
  intros Hsorted Hlt. apply StronglySorted_Sorted, StronglySorted_app_2.
  - intros x y Hx Hy. apply list_elem_of_singleton in Hy as ->.
    rewrite Forall_forall in Hlt. by apply Hlt.
  - apply Sorted_StronglySorted; [apply _|done].
  - repeat constructor.
Qed.

Lemma sorted_lt_le (suffixes : list Z) : Sorted Z.lt suffixes → Sorted Z.le suffixes.
Proof.
  induction 1 as [|k suffixes _ IH Hk]; constructor; [done|].
  destruct Hk; constructor. lia.
Qed.

Lemma sorted_lt_NoDup (suffixes : list Z) : Sorted Z.lt suffixes → NoDup suffixes.
Proof.
  intros Hsorted. apply Sorted_StronglySorted in Hsorted; [|apply _].
  induction Hsorted as [|k suffixes _ IH Hk]; constructor; [|done].
  intros Hin. rewrite Forall_forall in Hk. specialize (Hk k Hin). lia.
Qed.

(** Files written to increasing suffixes are read back, in suffix order,
    as they were written. *)
Lemma chunksAscending_writes writes :
  Sorted Z.lt writes.*1 → chunksAscending (list_to_map writes) = writes.*2.
Proof.
  intros Hsorted. pose proof (sorted_lt_NoDup _ Hsorted) as Hnd.
  assert (Hkeys : merge_sort Z.le (elements (dom (list_to_map writes : gmap Z _)))
                  = writes.*1).
  { apply (Sorted_unique Z.le).
    - apply Sorted_merge_sort. apply _.
    - by apply sorted_lt_le.
    - rewrite merge_sort_Permutation, dom_list_to_map_L.
      by apply elements_list_to_set. }
  unfold chunksAscending. rewrite Hkeys.
  apply list_eq. intros i. rewrite <- list_fmap_compose, !list_lookup_fmap.
  destruct (writes !! i) as [[k chunk]|] eqn:Hi; [|done]. cbn.
  apply list_elem_of_lookup_2 in Hi. apply elem_of_list_to_map in Hi; [|done].
  by rewrite Hi.
Qed.

Lemma length_concat_nonempty (chunks : list (list OutRow)) :
  Forall (λ chunk, chunk ≠ []) chunks → (length chunks ≤ length (concat chunks))%nat.
Proof.
  induction 1 as [|chunk chunks Hchunk _ IH]; [done|].
  cbn. rewrite length_app. destruct chunk; [done|]. cbn. lia.
Qed.

Lemma flushed_start C : flushed C [] (emptyWriter (OutRow := OutRow)) [].
Proof. repeat split; by constructor. Qed.

(** A write to a suffix above those in use. *)
Lemma written_snoc pushed w writes merged s p :
  recorded pushed w writes → Forall (λ k, (k < s)%Z) writes.*1 →
  recorded (pushed ++ [merged])
    {| out := []; files := <[s := out w ++ [merged]]> (files w); progress := S p |}
    (writes ++ [(s, out w ++ [merged])])
  ↔ S p = length (pushed ++ [merged]).
Proof.
  intros (Hfiles & Hsorted & Hne & Hcat & Hprog) Hfresh.
  split; [by intros (_ & _ & _ & _ & ?)|]. intros Hp.
  split; [|split; [|split; [|split]]]; cbn [out files progress].
  - rewrite list_to_map_snoc, Hfiles; [done|].
    intros Hin. rewrite Forall_forall in Hfresh. specialize (Hfresh s Hin). lia.
  - rewrite fmap_app. by apply sorted_lt_snoc.
  - rewrite fmap_app. apply Forall_app. split; [done|].
    constructor; [|constructor]. cbn. by destruct (out w).
  - rewrite fmap_app, concat_app. cbn. rewrite !app_nil_r, app_assoc. by rewrite Hcat.
  - done.
Qed.

(** An iteration that is not the last one keeps the invariant, whether it
    writes or not. *)
Lemma pushRow_flushed C R pushed w writes merged :
  (1 ≤ C)%Z → flushed C pushed w writes →
  Z.of_nat (length pushed) ≠ (R - 1)%Z →
  ∃ writes', flushed C (pushed ++ [merged])
               (pushRow C R (Z.of_nat (length pushed)) merged w) writes'.
Proof.
  intros HC [Hwritten Hbound] Hnotlast.
  assert (Hgrow : Forall (λ suffix, ((suffix + 1) * C
                    ≤ Z.of_nat (length (pushed ++ [merged])))%Z) writes.*1).
  { eapply Forall_impl; [exact Hbound|]. intros k Hk. cbn beta in *. rewrite length_app. cbn [length]. lia. }
  unfold pushRow, mustWrite, suffixOf.
  rewrite (bool_decide_eq_false_2 (_ = (R - 1)%Z)) by done. rewrite orb_false_r.
  destruct (bool_decide (Z.rem _ _ = _) && bool_decide _) eqn:Hwrite.
  - apply andb_true_iff in Hwrite as [Hrem _]. apply bool_decide_eq_true_1 in Hrem.
    pose proof (floorDiv_boundary C (Z.of_nat (length pushed)) HC
                  ltac:(lia) Hrem) as Hs.
    exists (writes ++ [(floorDiv (Z.of_nat (length pushed)) C, out w ++ [merged])]).
    split.
    + apply written_snoc; [done| |].
      * eapply Forall_impl; [exact Hbound|]. intros k Hk. cbn beta in *. nia.
      * destruct Hwritten as (_ & _ & _ & _ & ->). rewrite length_app. cbn. lia.
    + rewrite fmap_app. apply Forall_app. split; [done|].
      constructor; [|constructor]. cbn. rewrite length_app. cbn. lia.
  - exists writes. split; [|done].
    destruct Hwritten as (Hfiles & Hsorted & Hne & Hcat & Hprog).
    split; [done|]. split; [done|]. split; [done|]. cbn [out files progress].
    split; [by rewrite app_assoc, Hcat|]. rewrite length_app. cbn. lia.
Qed.

(** The last iteration writes whatever is buffered to a new suffix. *)
Lemma pushRow_written C R pushed w writes merged :
  (1 ≤ C)%Z → flushed C pushed w writes →
  Z.of_nat (length pushed) = (R - 1)%Z →
  ∃ writes', recorded (pushed ++ [merged])
               (pushRow C R (Z.of_nat (length pushed)) merged w) writes'
    ∧ out (pushRow C R (Z.of_nat (length pushed)) merged w) = [].
Proof.
  intros HC [Hwritten Hbound] Hlast.
  unfold pushRow, mustWrite, suffixOf.
  rewrite (bool_decide_eq_true_2 (_ = (R - 1)%Z)) by done. rewrite orb_true_r.
  exists (writes ++ [(ceilDiv (Z.of_nat (length pushed)) C, out w ++ [merged])]).
  split; [|done]. apply written_snoc; [done| |].
  - eapply Forall_impl; [exact Hbound|]. intros k Hk. cbn beta in *.
    pose proof (ceilDiv_upper C (Z.of_nat (length pushed)) HC). nia.
  - destruct Hwritten as (_ & _ & _ & _ & ->). rewrite length_app. cbn. lia.
Qed.

Lemma loopFrom_written C R rest : ∀ pushed w writes,
  (1 ≤ C)%Z → rest ≠ [] → flushed C pushed w writes →
  R = Z.of_nat (length (pushed ++ rest)) →
  ∃ writes', recorded (pushed ++ rest)
               (loopFrom C R (Z.of_nat (length pushed)) rest w) writes'
    ∧ out (loopFrom C R (Z.of_nat (length pushed)) rest w) = [].
Proof.
  induction rest as [|merged rest IH]; intros pushed w writes HC Hne Hflushed HR;
    [done|].
  cbn [loopFrom]. rewrite length_app in HR.
  destruct rest as [|next rest]; cbn [length] in HR.
  - cbn [loopFrom]. eapply pushRow_written; [done|exact Hflushed|lia].
  - destruct (pushRow_flushed C R pushed w writes merged HC Hflushed)
      as [writes' Hflushed']; [lia|].
    replace (Z.of_nat (length pushed) + 1)%Z
      with (Z.of_nat (length (pushed ++ [merged])))
      by (rewrite length_app; cbn; lia).
    rewrite (cons_middle merged pushed (next :: rest)), app_assoc.
    eapply IH; [done|done|exact Hflushed'|].
    rewrite !length_app. cbn [length] in *. lia.
Qed.

Lemma writeAll_read_back (C : Z) (rows : list OutRow) :
  (1 ≤ C)%Z →
  concat (chunksAscending (files (writeAll C rows))) = rows
  ∧ Forall (λ chunk, chunk ≠ []) (chunksAscending (files (writeAll C rows)))
  ∧ (size (files (writeAll C rows)) ≤ length rows)%nat
  ∧ out (writeAll C rows) = []
  ∧ progress (writeAll C rows) = length rows.
Proof.
  intros HC. unfold writeAll. destruct rows as [|row rows].
  - cbn. unfold chunksAscending. rewrite dom_empty_L, elements_empty. cbn.
    repeat split; [constructor|by rewrite map_size_empty].
  - destruct (loopFrom_written C (Z.of_nat (length (row :: rows))) (row :: rows)
                [] emptyWriter [] HC)
      as (writes & (Hfiles & Hsorted & Hne & Hcat & Hprog) & Hout);
      [done|apply flushed_start|done|].
    cbn [length app] in *. change (Z.of_nat 0) with 0%Z in *.
    rewrite Hout, app_nil_r in Hcat.
    rewrite Hfiles, chunksAscending_writes by done.
    split; [done|]. split; [done|]. split; [|by split].
    rewrite <- size_dom, dom_list_to_map_L, size_list_to_set
      by (by apply sorted_lt_NoDup).
    rewrite length_fmap, <- (length_fmap snd).
    replace (S (length rows)) with (length (concat writes.*2)) by (by rewrite Hcat).
    by apply length_concat_nonempty.
Qed.

(** Whatever the row limit [C >= 1], no row is lost, repeated or moved:
    the chunk files read in ascending suffix order give the rows in the
    order in which they were pushed, no file is empty, and nothing is left
    in the buffer when the loop ends. *)
Theorem writeAll_keeps_rows (C : Z) (rows : list OutRow) :
  (1 ≤ C)%Z →
  concat (chunksAscending (files (writeAll C rows))) = rows
  ∧ Forall (λ chunk, chunk ≠ []) (chunksAscending (files (writeAll C rows)))
  ∧ (size (files (writeAll C rows)) ≤ length rows)%nat
  ∧ out (writeAll C rows) = []
  ∧ progress (writeAll C rows) = length rows.
Proof. apply writeAll_read_back. Qed.

End Writes.

Lemma writeAll_keeps_rows_witness :
  concat (chunksAscending (files (writeAll 1 ["a"; "b"; "c"]))) = ["a"; "b"; "c"].
Proof.
  apply (proj1 (writeAll_keeps_rows 1 ["a"; "b"; "c"] ltac:(lia))).
Defined.

(** *** The row limit 1 *)

Section LimitOne.
Context {OutRow : Type}.
Implicit Types (w : Writer (OutRow := OutRow)).

Lemma pushRow_one R i merged w :
  (1 ≤ i)%Z →
  pushRow 1 R i merged w
  = {| out := []; files := <[i := out w ++ [merged]]> (files w);
       progress := S (progress w) |}.
Proof.
  intros Hi. unfold pushRow, mustWrite, suffixOf, ceilDiv, floorDiv.
  rewrite Z.rem_1_r, !Z.div_1_r, Z.opp_involutive.
  rewrite (bool_decide_eq_true_2 (0 = 0)%Z), (bool_decide_eq_true_2 (i ≠ 0%Z)) by lia.
  cbn [andb orb]. by case_bool_decide.
Qed.

Lemma pushRow_one_first R merged w :
  R ≠ 1%Z →
  pushRow 1 R 0 merged w
  = {| out := out w ++ [merged]; files := files w; progress := S (progress w) |}.
Proof.
  intros HR. unfold pushRow, mustWrite.
  rewrite (bool_decide_eq_false_2 (0 ≠ 0)%Z) by lia.
  rewrite (bool_decide_eq_false_2 (0 = R - 1)%Z) by lia.
  by rewrite andb_false_r.
Qed.

(** From index 1 on, every row goes alone into the file of its index. *)
Lemma loopFrom_one R rest : ∀ i w k,
  (1 ≤ i)%Z → out w = [] →
  files (loopFrom 1 R i rest w) !! k
  = if decide (i ≤ k < i + Z.of_nat (length rest))%Z
    then (λ row, [row]) <$> rest !! Z.to_nat (k - i)
    else files w !! k.
Proof.
  induction rest as [|row rest IH]; intros i w k Hi Hout; cbn [loopFrom length].
  - by rewrite decide_False by lia.
  - rewrite pushRow_one, Hout by done. rewrite IH by (done || lia).
    cbn [files app]. destruct (decide (k = i)) as [->|Hne].
    + rewrite decide_False, decide_True by lia.
      rewrite lookup_insert_eq. by replace (Z.to_nat (i - i)) with 0 by lia.
    + rewrite lookup_insert_ne by done.
      destruct (decide (i + 1 ≤ k < i + 1 + Z.of_nat (length rest))%Z).
      * rewrite decide_True by lia.
        by replace (Z.to_nat (k - i)) with (S (Z.to_nat (k - (i + 1)))) by lia.
      * by rewrite decide_False by lia.
Qed.

(** With the row limit 1 and at least two rows nothing is written at
    index 0: there is no file 0, file 1 holds the first two rows, and
    every later row is alone in the file of its index. *)
Theorem writeAll_limit_one (r0 r1 : OutRow) (rest : list OutRow) (k : Z) :
  files (writeAll 1 (r0 :: r1 :: rest)) !! k
  = if decide (k = 1%Z) then Some [r0; r1]
    else if decide (2 ≤ k)%Z then (λ row, [row]) <$> rest !! Z.to_nat (k - 2)
    else None.
Proof.
  unfold writeAll. cbn [loopFrom].
  rewrite pushRow_one_first by (cbn [length]; lia).
  rewrite pushRow_one by lia. cbn [out files emptyWriter app].
  rewrite loopFrom_one by (done || lia). cbn [files].
  destruct (decide (k = 1%Z)) as [->|Hne].
  - rewrite decide_False by lia. by rewrite lookup_insert_eq.
  - rewrite lookup_insert_ne, lookup_empty by done.
    destruct (decide (2 ≤ k)%Z).
    + destruct (decide (0 + 1 + 1 ≤ k < 0 + 1 + 1 + Z.of_nat (length rest))%Z).
      * by replace (k - (0 + 1 + 1))%Z with (k - 2)%Z by lia.
      * symmetry. rewrite fmap_None. apply lookup_ge_None_2. lia.
    + by rewrite decide_False by lia.
Qed.

End LimitOne.

(** *** The whole run *)

Section Pipeline.
Variable services : nat → nat → nat → Adapter.Reply.
Variable schedules : nat → list nat.
Variable Big_toString : Q → string.
Variable Number_toString : Q → string.
Variable toString : JsValue → string.
Variable readFile : string → Result string string.
Variable parseCsv : string → Result JsValue string.

#[local] Abbreviation estimateRow' :=
  (estimateRow services schedules Big_toString Number_toString).
#[local] Abbreviation main' :=
  (main services schedules Big_toString Number_toString toString readFile parseCsv).

Lemma length_searchPermutationsOf searchTermColumnsArr categoryColumnsArr row :
  length (Generator.searchPermutationsOf searchTermColumnsArr categoryColumnsArr row)
  = length searchTermColumnsArr * max 1 (length categoryColumnsArr).
Proof.
  unfold Generator.searchPermutationsOf.
  rewrite GeneratorProofs.searchCategoryPermutations_bind.
  rewrite (GeneratorProofs.length_bind_block _ (max 1 (length categoryColumnsArr))).
  - unfold Generator.searchTermsOf. by rewrite length_fmap.
  - intros s. by rewrite length_fmap, GeneratorProofs.length_categoriesOf.
Qed.

(** When every task of the row finishes once, the row that is pushed has
    the eleven columns of each rank from 1 to [S * max 1 C], whatever the
    service replied to the candidates, and carries over every input column
    that is not named like one of them. *)
Theorem estimateRow_columns (o : Options) i (row : gmap string string) :
  let N := length (searchTermColumnsArr o) * max 1 (length (categoryColumnsArr o)) in
  schedules i ≡ₚ seq 0 N →
  (∀ c idx, (1 ≤ idx ≤ N)%nat →
     is_Some (estimateRow' o i row !! Merger.columnKey c idx))
  ∧ (∀ key, (∀ c idx, (1 ≤ idx ≤ N)%nat → key ≠ Merger.columnKey c idx) →
       estimateRow' o i row !! key = row !! key).
Proof.
  intros N Hschedule. unfold estimateRow, Merger.outputRow. cbv zeta.
  set (searchPermutations := Generator.searchPermutationsOf _ _ row).
  set (ranked := Merger.sortedPermutationResults _).
  assert (HN : length searchPermutations = N) by apply length_searchPermutationsOf.
  assert (Hlen : length ranked = N).
  { unfold ranked. rewrite MergerProofs.sorted_perm, MergerProofs.results_runSchedule.
    rewrite MergerProofs.length_bind_ones.
    - by rewrite Hschedule, length_seq.
    - intros j Hj. apply MergerProofs.outcome_length.
      rewrite Hschedule, elem_of_seq in Hj. lia. }
  split.
  - intros c idx Hidx. rewrite lookup_union_l'.
    + apply MergerProofs.lookup_resultObj_is_Some. lia.
    + apply MergerProofs.lookup_resultObj_is_Some. lia.
  - intros key Hkey. apply lookup_union_r.
    destruct (Merger.resultObj Number_toString ranked !! key) as [v|] eqn:Hv; [|done].
    destruct (proj1 (MergerLaws.resultObj_is_Some Number_toString ranked key))
      as (c & idx & Hidx & ->); [by eexists|].
    destruct (Hkey c idx); [lia|done].
Qed.

(** [main] exits with status 1, no row processed and no file written
    exactly when loading fails, with the loader's message; otherwise it
    completes having processed every record once, and for a row limit of
    at least 1 the files read in suffix order hold one row per record, in
    the order of the input. *)
Theorem main_outcome (o : Options) :
  (∀ message,
     loadCsv toString readFile parseCsv (filename o) (columns o) = Err message →
     main' o = {| exit := ProcessExit 1 message; written := ∅; rowsProcessed := 0 |})
  ∧ (∀ source,
       loadCsv toString readFile parseCsv (filename o) (columns o) = Ok source →
       exit (main' o) = Completed
       ∧ source ≠ []
       ∧ ((1 ≤ outputFileRows o)%Z →
          rowsProcessed (main' o) = length source
          ∧ concat (chunksAscending (written (main' o)))
            = imap (λ i record, estimateRow' o i (asRow record)) source)).
Proof.
  split.
  - intros message Hload. unfold main. by rewrite Hload.
  - intros source Hload. unfold main. rewrite Hload. cbn [exit written rowsProcessed].
    split; [done|]. split.
    + apply LoaderLaws.loadCsv_nonempty in Hload. done.
    + intros HC.
      destruct (writeAll_read_back (outputFileRows o)
                  (imap (λ i record, estimateRow' o i (asRow record)) source) HC)
        as (Hcat & _ & _ & _ & Hprog).
      split; [|done]. by rewrite Hprog, length_imap.
Qed.

End Pipeline.

Lemma estimateRow_columns_witness :
  is_Some (estimateRow sampleRowServices sampleSchedules (λ _, "") (λ _, "")
             sampleOptions 0 sampleRow !! "Search term used (1)")
  ∧ estimateRow sampleRowServices sampleSchedules (λ _, "") (λ _, "")
      sampleOptions 0 sampleRow !! "Currency" = Some "USD".
Proof.
  destruct (estimateRow_columns sampleRowServices sampleSchedules (λ _, "") (λ _, "")
              sampleOptions 0 sampleRow) as [Hrank Hinput].
  - reflexivity.
  - split.
    + apply (Hrank Merger.SearchTermUsed 1). cbn. lia.
    + rewrite Hinput; [reflexivity|].
      intros c idx _. destruct c; cbn; discriminate.
Defined.

Lemma main_outcome_witness :
  exit (main sampleRowServices sampleSchedules (λ _, "") (λ _, "") (λ _, "")
          readHeaderOnly parseOneRecord sampleOptions) = Completed
  ∧ rowsProcessed (main sampleRowServices sampleSchedules (λ _, "") (λ _, "") (λ _, "")
                     readHeaderOnly parseOneRecord sampleOptions) = 1.
Proof.
  destruct (proj2 (main_outcome sampleRowServices sampleSchedules (λ _, "") (λ _, "")
                     (λ _, "") readHeaderOnly parseOneRecord sampleOptions)
              [oneRecord] eq_refl) as (Hexit & _ & Hrows).
  split; [exact Hexit|]. apply Hrows. cbn. lia.
Defined.

End DriverLaws.
